(** * Dialect provider core: a shallow embedding of [dialect/providers/base.py]

    The development follows the Python module top-down: the string
    primitives the module calls ([str.lower], [str.split], [str.join], ...),
    the [urllib.parse.urlencode] helper, the [BaseProvider] state with its
    settings accessors, [format_url], [normalize_lang_code], [add_lang],
    [denormalize_lang], [get_lang_name], and the callback protocol of the
    provider operations.

    Data model.  A Python [str] is a Rocq [string].  The case mappings and
    the length are Python's on ASCII text, which is what language codes are
    (ISO 639 / 15924 / 3166 subtags); outside the ASCII range they are not
    Python's, whose [upper] can even lengthen a string, so the statements
    on idempotence, fixed points and case-insensitivity of the normaliser
    are stated for codes and tables that satisfy [isascii].  A [dict] that is
    only ever looked up is a [gmap string _]; the [params] dict of
    [format_url], whose iteration order reaches the result, is an association
    list.  The global alias table and the locale-name service are not part
    of the module, and the provider alias table is a property concrete
    providers override: they are variables of the sections that use them. *)

From Stdlib Require Import Ascii String NArith ZArith List Lia.
From stdpp Require Import base option list strings gmap fin_maps.

(** ** Python string primitives *)

Module PyStr.

Definition is_upper (c : ascii) : bool :=
  let n := N_of_ascii c in N.leb 65 n && N.leb n 90.

Definition is_lower (c : ascii) : bool :=
  let n := N_of_ascii c in N.leb 97 n && N.leb n 122.

Definition ascii_lower (c : ascii) : ascii :=
  if is_upper c then ascii_of_N (N_of_ascii c + 32) else c.

Definition ascii_upper (c : ascii) : ascii :=
  if is_lower c then ascii_of_N (N_of_ascii c - 32) else c.

Fixpoint str_map (f : ascii → ascii) (s : string) : string :=
  match s with
  | EmptyString => EmptyString
  | String c r => String (f c) (str_map f r)
  end.

(** [s.lower()] and [s.upper()], as they act on ASCII text *)
Definition lower : string → string := str_map ascii_lower.
Definition upper : string → string := str_map ascii_upper.

(** [s.capitalize()] on ASCII text: first character upper-cased, the rest
    lower-cased *)
Definition capitalize (s : string) : string :=
  match s with
  | EmptyString => EmptyString
  | String c r => String (ascii_upper c) (lower r)
  end.

(** [s.replace(old, new)] for one-character [old] and [new] *)
Definition replace_char (old new c : ascii) : ascii :=
  if Ascii.eqb c old then new else c.

Definition replace (old new : ascii) : string → string :=
  str_map (replace_char old new).

(** What [code.replace('_', '-').lower()] does to one character *)
Definition fold_char (c : ascii) : ascii :=
  ascii_lower (replace_char "_"%char "-"%char c).

(** [s.split(sep)] for a one-character separator: never the empty list,
    [''.split('-') == ['']]. *)
Fixpoint split (sep : ascii) (s : string) : list string :=
  match s with
  | EmptyString => [EmptyString]
  | String c r =>
      if Ascii.eqb c sep then EmptyString :: split sep r
      else match split sep r with
           | [] => [String c EmptyString]
           | p :: ps => String c p :: ps
           end
  end.

(** [sep.join(parts)] *)
Fixpoint join (sep : string) (parts : list string) : string :=
  match parts with
  | [] => EmptyString
  | [p] => p
  | p :: ps => p +:+ sep +:+ join sep ps
  end.

(** [s.startswith(prefix)] *)
Fixpoint startswith (prefix s : string) : bool :=
  match prefix, s with
  | EmptyString, _ => true
  | String _ _, EmptyString => false
  | String a p, String b r => Ascii.eqb a b && startswith p r
  end.

(** [len(s)]; one character per byte, as on ASCII text *)
Definition len (s : string) : nat := String.length s.

(** [s.isascii()]: the strings on which the primitives above are Python's *)
Definition is_ascii_char (c : ascii) : bool := N.ltb (N_of_ascii c) 128.

Fixpoint isascii (s : string) : bool :=
  match s with
  | EmptyString => true
  | String c r => is_ascii_char c && isascii r
  end.

Global Arguments replace (old new)%_char s.
Global Arguments split sep%_char s.

End PyStr.

Import PyStr.

(** ** Language-code normalisation *)

(** [BaseProvider.lang_aliases]: the base class maps nothing, concrete
    providers override the property. *)
Definition base_lang_aliases : gmap string string := ∅.

Section Normalizer.

(** [dialect.define.LANG_ALIASES], defined outside this module, and the
    value of the provider's [lang_aliases] property. *)
Variable LANG_ALIASES : gmap string string.
Variable lang_aliases : gmap string string.

(** [{**LANG_ALIASES, **self.lang_aliases}]: on a shared key the provider
    entry wins. *)
Definition merged_aliases : gmap string string :=
  lang_aliases ∪ LANG_ALIASES.

Definition normalize_lang_code (code : string) : string :=
  let code := lower (replace "_" "-" code) in
  let codes := split "-" code in
  let code :=
    if decide (length codes = 2) then
      let c1 := default "" (codes !! 1) in
      let codes :=
        if decide (len c1 = 4) then <[1 := capitalize c1]> codes
        else if decide (len c1 = 2) then <[1 := upper c1]> codes
        else codes in
      join "-" codes
    else code in
  let aliases := merged_aliases in
  match aliases !! code with
  | Some target => target
  | None => code
  end.

End Normalizer.

(** ** [urllib.parse.urlencode], as [format_url] uses it *)

Module Urllib.

Definition is_digit (c : ascii) : bool :=
  let n := N_of_ascii c in N.leb 48 n && N.leb n 57.

(** Characters [quote] never escapes: letters, digits and [_.-~]. *)
Definition always_safe (c : ascii) : bool :=
  is_upper c || is_lower c || is_digit c
  || Ascii.eqb c "_" || Ascii.eqb c "." || Ascii.eqb c "-" || Ascii.eqb c "~".

Definition hex_digit (n : N) : ascii :=
  if N.ltb n 10 then ascii_of_N (48 + n) else ascii_of_N (55 + n).

(** ['%{:02X}'.format(byte)] *)
Definition percent (c : ascii) : string :=
  let n := N_of_ascii c in
  String "%"%char (String (hex_digit (N.div n 16)) (String (hex_digit (N.modulo n 16)) "")).

(** [quote_plus]: a space becomes [+], safe characters stay, the rest is
    percent-escaped. *)
Fixpoint quote_plus (s : string) : string :=
  match s with
  | EmptyString => EmptyString
  | String c r =>
      if Ascii.eqb c " " then String "+"%char (quote_plus r)
      else if always_safe c then String c (quote_plus r)
      else percent c +:+ quote_plus r
  end.

(** [urlencode(query)]: [k=v] for every item in dict order, joined by [&]. *)
Definition urlencode (query : list (string * string)) : string :=
  let l := fold_left
             (λ l kv, l ++ [quote_plus (fst kv) +:+ "=" +:+ quote_plus (snd kv)])
             query [] in
  join "&" l.

End Urllib.

(** ** Errors, results and the provider state *)

Inductive ProviderErrorCode :=
| UNEXPECTED | NETWORK | EMPTY | API_KEY_REQUIRED | API_KEY_INVALID
| INVALID_LANG_CODE | BATCH_SIZE_EXCEEDED | CHARACTERS_LIMIT_EXCEEDED
| SERVICE_LIMIT_REACHED | TRANSLATION_FAILED | TTS_FAILED.

Record ProviderError := {
  code : ProviderErrorCode;
  message : string
}.

Record Translation := {
  text : string;
  original : string * string * string;
  detected : option string;
  mistakes : option string * option string;
  pronunciation : option string * option string
}.

(** The [Gio.Settings] object of a provider, seen as the typed key-value
    store the accessors read and write. *)
Record Settings := {
  string_keys : gmap string string;
  strv_keys : gmap string (list string)
}.

(** Modelled from the spec: the settings schema with its per-key defaults is
    not among the sources; the store is an opaque key-value store with typed
    accessors, and a key that was never written reads as the empty value. *)
Definition get_string (s : Settings) (key : string) : string :=
  default "" (string_keys s !! key).

Definition set_string (s : Settings) (key value : string) : Settings :=
  {| string_keys := <[key := value]> (string_keys s); strv_keys := strv_keys s |}.

(** Modelled from the spec: as for [get_string], an unset list key reads as
    the empty list. *)
Definition get_strv (s : Settings) (key : string) : list string :=
  default [] (strv_keys s !! key).

Definition set_strv (s : Settings) (key : string) (value : list string) : Settings :=
  {| string_keys := string_keys s; strv_keys := <[key := value]> (strv_keys s) |}.

(** Python's [a or b] on strings and on lists *)
Definition str_or (a b : string) : string :=
  match a with EmptyString => b | _ => a end.

Definition list_or {A} (a b : list A) : list A :=
  match a with [] => b | _ => a end.

(** [d.get(key, fallback)] *)
Definition dict_get (d : gmap string string) (key fallback : string) : string :=
  default fallback (d !! key).

Record BaseProvider := {
  languages : list string;
  tts_languages : list string;
  _nonstandard_langs : gmap string string;
  _languages_names : gmap string string;
  chars_limit : Z;
  history : list Translation;
  settings : Settings
}.

(** [BaseProvider.__init__], over the settings found in the store *)
Definition init (store : Settings) : BaseProvider := {|
  languages := [];
  tts_languages := [];
  _nonstandard_langs := ∅;
  _languages_names := ∅;
  chars_limit := (-1)%Z;
  history := [];
  settings := store
|}.

Definition with_settings (self : BaseProvider) (s : Settings) : BaseProvider := {|
  languages := languages self;
  tts_languages := tts_languages self;
  _nonstandard_langs := _nonstandard_langs self;
  _languages_names := _languages_names self;
  chars_limit := chars_limit self;
  history := history self;
  settings := s
|}.

(** *** Settings helpers and properties *)

Module defaults.
Definition instance_url : string := "".
Definition api_key : string := "".
Definition src_langs : list string := ["en"; "fr"; "es"; "de"].
Definition dest_langs : list string := ["fr"; "es"; "de"; "en"].
End defaults.

Definition instance_url (self : BaseProvider) : string :=
  str_or (get_string (settings self) "instance-url") defaults.instance_url.

Definition set_instance_url (self : BaseProvider) (url : string) : BaseProvider :=
  with_settings self (set_string (settings self) "instance-url" url).

Definition reset_instance_url (self : BaseProvider) : BaseProvider :=
  set_instance_url self "".

Definition api_key (self : BaseProvider) : string :=
  str_or (get_string (settings self) "api-key") defaults.api_key.

Definition set_api_key (self : BaseProvider) (key : string) : BaseProvider :=
  with_settings self (set_string (settings self) "api-key" key).

Definition reset_api_key (self : BaseProvider) : BaseProvider :=
  set_api_key self "".

Definition src_langs (self : BaseProvider) : list string :=
  list_or (get_strv (settings self) "src-langs") defaults.src_langs.

Definition set_src_langs (self : BaseProvider) (langs : list string) : BaseProvider :=
  with_settings self (set_strv (settings self) "src-langs" langs).

Definition reset_src_langs (self : BaseProvider) : BaseProvider :=
  set_src_langs self [].

Definition dest_langs (self : BaseProvider) : list string :=
  list_or (get_strv (settings self) "dest-langs") defaults.dest_langs.

Definition set_dest_langs (self : BaseProvider) (langs : list string) : BaseProvider :=
  with_settings self (set_strv (settings self) "dest-langs" langs).

Definition reset_dest_langs (self : BaseProvider) : BaseProvider :=
  set_dest_langs self [].

(** *** General provider helpers *)

Definition format_url (url path : string) (params : list (string * string))
    (http : bool) : string :=
  let path := if negb (startswith "/" path) then "/" +:+ path else path in
  let protocol := "https://" in
  let protocol :=
    if startswith "localhost:" url || http then "http://" else protocol in
  let params_str := Urllib.urlencode params in
  let params_str :=
    match params_str with
    | EmptyString => params_str
    | _ => "?" +:+ params_str
    end in
  protocol +:+ url +:+ path +:+ params_str.

(** ** The language registry *)

Definition with_languages (self : BaseProvider) (l : list string) : BaseProvider := {|
  languages := l;
  tts_languages := tts_languages self;
  _nonstandard_langs := _nonstandard_langs self;
  _languages_names := _languages_names self;
  chars_limit := chars_limit self;
  history := history self;
  settings := settings self
|}.

Definition with_tts_languages (self : BaseProvider) (l : list string) : BaseProvider := {|
  languages := languages self;
  tts_languages := l;
  _nonstandard_langs := _nonstandard_langs self;
  _languages_names := _languages_names self;
  chars_limit := chars_limit self;
  history := history self;
  settings := settings self
|}.

Definition with_nonstandard_langs (self : BaseProvider) (m : gmap string string)
    : BaseProvider := {|
  languages := languages self;
  tts_languages := tts_languages self;
  _nonstandard_langs := m;
  _languages_names := _languages_names self;
  chars_limit := chars_limit self;
  history := history self;
  settings := settings self
|}.

Definition with_languages_names (self : BaseProvider) (m : gmap string string)
    : BaseProvider := {|
  languages := languages self;
  tts_languages := tts_languages self;
  _nonstandard_langs := _nonstandard_langs self;
  _languages_names := m;
  chars_limit := chars_limit self;
  history := history self;
  settings := settings self
|}.

(** What [denormalize_lang] hands back: a [str] for one code, a [tuple]
    otherwise. *)
Inductive str_or_tuple :=
| PyStr (s : string)
| PyTuple (items : list string).

Section Registry.

Variable LANG_ALIASES : gmap string string.
Variable lang_aliases : gmap string string.

(** [dialect.languages.get_lang_name], the locale-name service *)
Variable locale_lang_name : string → option string.

Local Abbreviation normalize := (normalize_lang_code LANG_ALIASES lang_aliases).

Definition add_lang (self : BaseProvider) (original_code : string)
    (name : option string) (trans tts : bool) : BaseProvider :=
  let code := normalize original_code in
  let self :=
    if trans then with_languages self (languages self ++ [code]) else self in
  let self :=
    if tts then with_tts_languages self (tts_languages self ++ [code]) else self in
  let self :=
    if decide (code ≠ original_code ∧ _nonstandard_langs self !! code = None)
    then with_nonstandard_langs self (<[code := original_code]> (_nonstandard_langs self))
    else self in
  match name with
  | Some name =>
      if decide (_languages_names self !! code = None)
      then with_languages_names self (<[code := name]> (_languages_names self))
      else self
  | None => self
  end.

Definition denormalize_lang (self : BaseProvider) (codes : list string)
    : str_or_tuple :=
  if decide (length codes = 1) then
    let c := default "" (codes !! 0) in
    PyStr (dict_get (_nonstandard_langs self) c c)
  else
    let result :=
      fold_left
        (λ result code, result ++ [dict_get (_nonstandard_langs self) code code])
        codes [] in
    PyTuple result.

Definition get_lang_name (self : BaseProvider) (code : string) : string :=
  match locale_lang_name code with
  | None => dict_get (_languages_names self) code code
  | Some name => name
  end.

End Registry.

(** A run of [add_lang] calls, as an [init_trans] implementation issues
    them: [(original_code, name, trans, tts)] per call. *)
Definition add_lang_args : Type := string * option string * bool * bool.

Definition arg_code (a : add_lang_args) : string := a.1.1.1.

Definition add_langs (LANG_ALIASES lang_aliases : gmap string string)
    (self : BaseProvider) (calls : list add_lang_args) : BaseProvider :=
  fold_left
    (λ self a, add_lang LANG_ALIASES lang_aliases self (arg_code a) a.1.1.2 a.1.2 a.2)
    calls self.

(** ** The provider operations and their callbacks

    An operation receives its continuations as arguments and either returns
    or raises.  [World] is whatever the continuations and the transport act
    on; an operation is a function from the world before the call to the
    world after it, together with how the call ended. *)

Inductive Exn := NotImplementedError.

Section Operations.

Variable World : Type.

Definition Op (A : Type) : Type := World → World * (Exn + A).

(** [raise e]: the world is left as it is *)
Definition raise {A} (e : Exn) : Op A := λ w, (w, inl e).

Definition validate_instance (url : string)
    (on_done : bool → Op unit) (on_fail : ProviderError → Op unit) : Op unit :=
  raise NotImplementedError.

Definition validate_api_key (self : BaseProvider) (key : string)
    (on_done : bool → Op unit) (on_fail : ProviderError → Op unit) : Op unit :=
  raise NotImplementedError.

Definition init_trans (self : BaseProvider)
    (on_done : Op unit) (on_fail : ProviderError → Op unit) : Op unit :=
  on_done.

Definition init_tts (self : BaseProvider)
    (on_done : Op unit) (on_fail : ProviderError → Op unit) : Op unit :=
  on_done.

Definition translate (self : BaseProvider) (text src dest : string)
    (on_done : Translation → Op unit) (on_fail : ProviderError → Op unit)
    : Op unit :=
  raise NotImplementedError.

Definition suggest (self : BaseProvider) (text src dest suggestion : string)
    (on_done : bool → Op unit) (on_fail : ProviderError → Op unit) : Op unit :=
  raise NotImplementedError.

Definition speech (self : BaseProvider) (text language : string)
    (on_done : list Byte.byte → Op unit) (on_fail : ProviderError → Op unit)
    : Op unit :=
  raise NotImplementedError.

End Operations.

(** A world that only records what happened: the arguments of every
    [on_done] and [on_fail] call, and the requests handed to the transport. *)
Record Observed := {
  done_calls : list Translation;
  fail_calls : list ProviderError;
  requests : list string
}.

Definition nothing_observed : Observed :=
  {| done_calls := []; fail_calls := []; requests := [] |}.

Definition record_done (t : Translation) : Op Observed unit :=
  λ w, ({| done_calls := done_calls w ++ [t];
           fail_calls := fail_calls w;
           requests := requests w |}, inr tt).

Definition record_fail (e : ProviderError) : Op Observed unit :=
  λ w, ({| done_calls := done_calls w;
           fail_calls := fail_calls w ++ [e];
           requests := requests w |}, inr tt).

Definition with_chars_limit (self : BaseProvider) (n : Z) : BaseProvider := {|
  languages := languages self;
  tts_languages := tts_languages self;
  _nonstandard_langs := _nonstandard_langs self;
  _languages_names := _languages_names self;
  chars_limit := n;
  history := history self;
  settings := settings self
|}.

Definition empty_store : Settings := {| string_keys := ∅; strv_keys := ∅ |}.

(** Modelled from the spec: the concrete providers that override
    [translate] are not among the sources, only the abstract method is.  By
    section 4.4 and the testable properties, a concrete [translate] fails
    with [EMPTY] when the text is empty, before anything else, and with
    [CHARACTERS_LIMIT_EXCEEDED] when the text is longer than [chars_limit]
    unless that is the unlimited sentinel -1, in both cases through
    [on_fail] and without invoking the transport.  What follows the two
    checks (language validation, authentication, the exchange with the
    service over the transport and the delivery of its outcome) differs per
    provider and is the parameter [exchange]. *)
Definition spec_translate (World : Type)
    (exchange : BaseProvider → string → string → string →
                (Translation → Op World unit) →
                (ProviderError → Op World unit) → Op World unit)
    (self : BaseProvider) (text src dest : string)
    (on_done : Translation → Op World unit)
    (on_fail : ProviderError → Op World unit) : Op World unit :=
  if decide (text = "") then
    on_fail {| code := EMPTY; message := "" |}
  else if decide (chars_limit self ≠ (-1)%Z
                  ∧ (chars_limit self < Z.of_nat (len text))%Z) then
    on_fail {| code := CHARACTERS_LIMIT_EXCEEDED; message := "" |}
  else exchange self text src dest on_done on_fail.

(** An exchange for the recording world: the text goes to the transport,
    which records the request, and comes back as its own translation. *)
Definition echo_exchange (self : BaseProvider) (text src dest : string)
    (on_done : Translation → Op Observed unit)
    (on_fail : ProviderError → Op Observed unit) : Op Observed unit :=
  λ w, on_done
         {| text := text; original := (text, src, dest); detected := None;
            mistakes := (None, None); pronunciation := (None, None) |}
         {| done_calls := done_calls w;
            fail_calls := fail_calls w;
            requests := requests w ++ [text] |}.

(** ** The normaliser as the specification words it

    Replace underscores by hyphens and lower-case; on exactly two
    hyphen-separated parts, capitalise a four-character second part and
    upper-case a two-character one; then substitute through the merged
    alias table. *)

Definition spec_second_part (part : string) : string :=
  match len part with
  | 4 => capitalize part
  | 2 => upper part
  | _ => part
  end.

Definition spec_structural (code : string) : string :=
  let code := lower (replace "_" "-" code) in
  match split "-" code with
  | [first; second] => first +:+ "-" +:+ spec_second_part second
  | _ => code
  end.

Definition spec_alias (aliases : gmap string string) (code : string) : string :=
  default code (aliases !! code).

(** Every alias target that the normaliser can reach (its key is a result of
    the structural step) is itself left alone by the normaliser. *)
Definition aliases_closed (LANG_ALIASES lang_aliases : gmap string string) : Prop :=
  map_Forall
    (λ key target,
       spec_structural key = key →
       normalize_lang_code LANG_ALIASES lang_aliases target = target)
    (merged_aliases LANG_ALIASES lang_aliases).

(** Keys and targets of both alias tables are ASCII. *)
Definition ascii_tables (LANG_ALIASES lang_aliases : gmap string string) : Prop :=
  map_Forall (λ key target, isascii key = true ∧ isascii target = true)
    (merged_aliases LANG_ALIASES lang_aliases).

(** What one [denormalize_lang] lookup yields for [code] *)
Definition denormalized (self : BaseProvider) (code : string) : string :=
  match _nonstandard_langs self !! code with
  | Some original => original
  | None => code
  end.

(** The query string the URL helper is specified to append *)
Definition spec_query (params : list (string * string)) : string :=
  match params with
  | [] => ""
  | _ =>
      "?" +:+ join "&"
        (map (λ kv, Urllib.quote_plus kv.1 +:+ "=" +:+ Urllib.quote_plus kv.2) params)
  end.

(** ** Capability and feature flags

    [ProviderCapability] and [ProviderFeature] are [enum.Flag] classes whose
    members are declared with [auto()]: the members take the values 1, 2, 4,
    ... in declaration order, [a | b] is the bitwise or of the values and
    [a in b] holds when every bit of [a] is set in [b]. *)

Module Flag.

Definition flag_or (a b : N) : N := N.lor a b.

Definition flag_in (a b : N) : bool := N.eqb (N.land a b) a.

(** [m1 | m2 | ...], the empty combination being [Flag(0)] *)
Definition combine (l : list N) : N := fold_left flag_or l 0%N.

End Flag.

Module ProviderCapability.

Definition TRANSLATION : N := 1.
Definition TTS : N := 2.
Definition DEFINITIONS : N := 4.

Definition members : list N := [TRANSLATION; TTS; DEFINITIONS].

End ProviderCapability.

Module ProviderFeature.

Definition NONE : N := 1.
Definition INSTANCES : N := 2.
Definition API_KEY : N := 4.
Definition API_KEY_REQUIRED : N := 8.
Definition DETECTION : N := 16.
Definition MISTAKES : N := 32.
Definition PRONUNCIATION : N := 64.
Definition SUGGESTIONS : N := 128.

Definition members : list N :=
  [NONE; INSTANCES; API_KEY; API_KEY_REQUIRED; DETECTION; MISTAKES;
   PRONUNCIATION; SUGGESTIONS].

End ProviderFeature.

(** The class attributes [BaseProvider.capabilities] and
    [BaseProvider.features] *)
Definition base_capabilities : option N := None.
Definition base_features : N := ProviderFeature.NONE.

(** ** Vocabulary of the further properties *)

(** How often the character [c] occurs in [s] *)
Fixpoint count_char (c : ascii) (s : string) : nat :=
  match s with
  | EmptyString => 0
  | String d r => (if Ascii.eqb d c then 1 else 0) + count_char c r
  end.

(** One [k=v] item of an encoded query *)
Definition encoded_pair (kv : string * string) : string :=
  Urllib.quote_plus kv.1 +:+ "=" +:+ Urllib.quote_plus kv.2.

(** The normal forms a run of [add_lang] calls appends to a list, given the
    flag that selects the list *)
Definition appended_codes (LANG_ALIASES lang_aliases : gmap string string)
    (flag : add_lang_args → bool) (calls : list add_lang_args) : list string :=
  map (λ a, normalize_lang_code LANG_ALIASES lang_aliases (arg_code a))
    (List.filter flag calls).

Definition arg_name (a : add_lang_args) : option string := a.1.1.2.
Definition arg_trans (a : add_lang_args) : bool := a.1.2.
Definition arg_tts (a : add_lang_args) : bool := a.2.

(** ** Registry invariants *)

Section Invariants.

Variable LANG_ALIASES : gmap string string.
Variable lang_aliases : gmap string string.

Local Abbreviation normalize := (normalize_lang_code LANG_ALIASES lang_aliases).

(** Every entry of the nonstandard map leads from a normal form to an
    original code that normalisation changed. *)
Definition nonstandard_ok (self : BaseProvider) : Prop :=
  ∀ k o, _nonstandard_langs self !! k = Some o → k ≠ o ∧ k = normalize o.

(** Both language lists hold fixed points of the normaliser only. *)
Definition langs_normalized (self : BaseProvider) : Prop :=
  (∀ c, c ∈ languages self → normalize c = c)
  ∧ (∀ c, c ∈ tts_languages self → normalize c = c).

(** The slot of [o]'s normal form is free or already holds [o]. *)
Definition slot_free_for (o : string) (self : BaseProvider) : Prop :=
  _nonstandard_langs self !! normalize o = None
  ∨ _nonstandard_langs self !! normalize o = Some o.

(** The call [a] does not take the slot of [o]'s normal form away from
    [o]: if its code has the same normal form, it either is that normal
    form already (and registers nothing) or is [o] itself. *)
Definition no_rival (o : string) (a : add_lang_args) : Prop :=
  normalize (arg_code a) = normalize o →
  normalize (arg_code a) = arg_code a ∨ arg_code a = o.

End Invariants.

(** * Properties *)

(** ** The embedding on sample inputs *)

Example split_keeps_empty_parts : split "-" "a--b-" = ["a"; ""; "b"; ""].
Proof. reflexivity. Qed.

Example split_of_empty : split "-" "" = [""].
Proof. reflexivity. Qed.

Example capitalize_script : capitalize "hANS" = "Hans".
Proof. reflexivity. Qed.

Example quote_plus_escapes : Urllib.quote_plus "h i&~" = "h+i%26~".
Proof. reflexivity. Qed.

Example urlencode_pairs :
  Urllib.urlencode [("q", "hi"); ("a b", "x/y")] = "q=hi&a+b=x%2Fy".
Proof. reflexivity. Qed.

Example normalize_three_parts :
  normalize_lang_code ∅ base_lang_aliases "ZH_hans_CN" = "zh-hans-cn".
Proof. vm_compute. reflexivity. Qed.

Example normalize_long_second_part :
  normalize_lang_code ∅ base_lang_aliases "mni_MTEI" = "mni-Mtei"
  ∧ normalize_lang_code ∅ base_lang_aliases "es_419" = "es-419".
Proof. split; vm_compute; reflexivity. Qed.

Example denormalize_lang_no_codes :
  denormalize_lang (init empty_store) [] = PyTuple [].
Proof. reflexivity. Qed.

(** ** Facts about the string primitives *)

Section StringFacts.

Lemma app_String (c : ascii) (s t : string) :
  String c s +:+ t = String c (s +:+ t).
Proof. reflexivity. Qed.

Lemma str_map_app (f : ascii → ascii) (s t : string) :
  str_map f (s +:+ t) = str_map f s +:+ str_map f t.
Proof.
  induction s as [|c s IH]; [reflexivity|].
  rewrite app_String. simpl. rewrite IH. reflexivity.
Qed.

Lemma str_map_compose (f g : ascii → ascii) (s : string) :
  str_map f (str_map g s) = str_map (λ c, f (g c)) s.
Proof. induction s as [|c s IH]; simpl; [done|by rewrite IH]. Qed.

Lemma str_map_ext (f g : ascii → ascii) (s : string) :
  (∀ c, f c = g c) → str_map f s = str_map g s.
Proof. intros E. induction s as [|c s IH]; simpl; [done|by rewrite E, IH]. Qed.

Lemma join_split (sep : ascii) (s : string) :
  join (String sep "") (split sep s) = s.
Proof.
  induction s as [|c s IH]; [reflexivity|].
  simpl. destruct (Ascii.eqb_spec c sep) as [->|Hne].
  - destruct (split sep s) as [|p ps] eqn:E.
    + simpl in IH. subst s. discriminate E.
    + change (join (String sep "") ("" :: p :: ps))
        with ("" +:+ String sep "" +:+ join (String sep "") (p :: ps)).
      rewrite IH. reflexivity.
  - destruct (split sep s) as [|p ps] eqn:E.
    + simpl in IH. subst s. discriminate E.
    + destruct ps as [|q qs].
      * simpl in *. by rewrite IH.
      * change (join (String sep "") (String c p :: q :: qs))
          with (String c (p +:+ String sep "" +:+ join (String sep "") (q :: qs))).
        f_equal. exact IH.
Qed.

Lemma lower_replace (s : string) :
  lower (replace "_" "-" s) = str_map fold_char s.
Proof. exact (str_map_compose ascii_lower (replace_char "_" "-") s). Qed.

Lemma fold_char_idem (c : ascii) : fold_char (fold_char c) = fold_char c.
Proof. destruct c as [[] [] [] [] [] [] [] []]; reflexivity. Qed.

Lemma fold_char_upper (c : ascii) : fold_char (ascii_upper c) = fold_char c.
Proof. destruct c as [[] [] [] [] [] [] [] []]; reflexivity. Qed.

Lemma fold_char_lower (c : ascii) : fold_char (ascii_lower c) = fold_char c.
Proof. destruct c as [[] [] [] [] [] [] [] []]; reflexivity. Qed.

(** A loop that appends [f x] per item builds [map f]. *)
Lemma fold_left_snoc_map {A B} (f : A → B) (l : list A) (acc : list B) :
  fold_left (λ result x, result ++ [f x]) l acc = acc ++ map f l.
Proof.
  revert acc. induction l as [|x l IH]; intros acc; simpl.
  - by rewrite app_nil_r.
  - rewrite IH, <- app_assoc. reflexivity.
Qed.

End StringFacts.

(** ** The normaliser *)

Section NormalizerFacts.

Variable LANG_ALIASES : gmap string string.
Variable lang_aliases : gmap string string.

Local Abbreviation normalize := (normalize_lang_code LANG_ALIASES lang_aliases).
Local Abbreviation aliases := (merged_aliases LANG_ALIASES lang_aliases).

(** The source function is the structural step followed by one alias
    lookup. *)
Lemma normalize_lang_code_unfold (code : string) :
  normalize code = spec_alias aliases (spec_structural code).
Proof.
  unfold normalize_lang_code, spec_alias, spec_structural.
  set (s := lower (replace "_" "-" code)).
  assert (E : (if decide (length (split "-" s) = 2)
               then
                 join "-"
                   (if decide (len (default "" (split "-" s !! 1)) = 4)
                    then <[1 := capitalize (default "" (split "-" s !! 1))]> (split "-" s)
                    else if decide (len (default "" (split "-" s !! 1)) = 2)
                         then <[1 := upper (default "" (split "-" s !! 1))]> (split "-" s)
                         else split "-" s)
               else s)
              = match split "-" s with
                | [first; second] => first +:+ "-" +:+ spec_second_part second
                | _ => s
                end).
  { destruct (split "-" s) as [|a [|b [|c l]]] eqn:Hs; try reflexivity.
    change (default "" ([a; b] !! 1)) with b.
    unfold spec_second_part.
    destruct (len b) as [|[|[|[|[|n]]]]]; reflexivity. }
  cbv zeta. rewrite E. destruct (aliases !! _); reflexivity.
Qed.

Lemma fold_second_part (p : string) :
  str_map fold_char (spec_second_part p) = str_map fold_char p.
Proof.
  unfold spec_second_part.
  destruct (len p) as [|[|[|[|[|n]]]]]; try reflexivity.
  - unfold upper. rewrite str_map_compose.
    apply str_map_ext, fold_char_upper.
  - destruct p as [|c r]; [reflexivity|]. simpl. f_equal.
    + apply fold_char_upper.
    + unfold lower. rewrite str_map_compose. apply str_map_ext, fold_char_lower.
Qed.

(** Folding the structural result gives back the folded input. *)
Lemma fold_structural (code : string) :
  str_map fold_char (spec_structural code) = str_map fold_char code.
Proof.
  unfold spec_structural. rewrite lower_replace.
  set (s := str_map fold_char code).
  assert (Hs : str_map fold_char s = s).
  { unfold s. rewrite str_map_compose. apply str_map_ext, fold_char_idem. }
  pose proof (join_split "-" s) as J.
  destruct (split "-" s) as [|a [|b [|c l]]]; try exact Hs.
  rewrite <- Hs, <- J.
  change (join "-" [a; b]) with (a +:+ "-" +:+ b).
  rewrite !str_map_app, fold_second_part. reflexivity.
Qed.

Lemma structural_idempotent (code : string) :
  spec_structural (spec_structural code) = spec_structural code.
Proof.
  unfold spec_structural at 1. rewrite lower_replace, fold_structural.
  unfold spec_structural. rewrite lower_replace. reflexivity.
Qed.

Lemma normalize_idempotent_closed :
  aliases_closed LANG_ALIASES lang_aliases →
  ∀ code, normalize (normalize code) = normalize code.
Proof.
  intros Hc code0.
  rewrite (normalize_lang_code_unfold code0). unfold spec_alias.
  destruct (aliases !! spec_structural code0) as [t|] eqn:E; simpl.
  - apply (Hc _ _ E), structural_idempotent.
  - rewrite normalize_lang_code_unfold, structural_idempotent.
    unfold spec_alias. rewrite E. reflexivity.
Qed.

(** A provider alias wins over the global table, whatever that holds. *)
Lemma provider_alias_wins (key target : string) :
  lang_aliases !! key = Some target → aliases !! key = Some target.
Proof. apply lookup_union_Some_l. Qed.

Lemma idempotent_aliases_closed :
  ascii_tables LANG_ALIASES lang_aliases →
  (∀ code, isascii code = true → normalize (normalize code) = normalize code) →
  aliases_closed LANG_ALIASES lang_aliases.
Proof.
  intros Ha Hi k t E Hk.
  destruct (Ha k t E) as [Hascii _].
  pose proof (Hi k Hascii) as H.
  rewrite (normalize_lang_code_unfold k) in H.
  unfold spec_alias in H. rewrite Hk, E in H. exact H.
Qed.

(** The normaliser stays within ASCII text. *)
Lemma is_ascii_char_fold (c : ascii) :
  is_ascii_char (fold_char c) = is_ascii_char c.
Proof. destruct c as [[] [] [] [] [] [] [] []]; reflexivity. Qed.

Lemma isascii_fold (s : string) : isascii (str_map fold_char s) = isascii s.
Proof.
  induction s as [|c s IH]; [reflexivity|].
  simpl. by rewrite is_ascii_char_fold, IH.
Qed.

Lemma isascii_structural (code : string) :
  isascii (spec_structural code) = isascii code.
Proof.
  rewrite <- (isascii_fold (spec_structural code)), fold_structural.
  apply isascii_fold.
Qed.

Lemma normalize_isascii (code : string) :
  ascii_tables LANG_ALIASES lang_aliases →
  isascii code = true → isascii (normalize code) = true.
Proof.
  intros Ha Hc. rewrite normalize_lang_code_unfold. unfold spec_alias.
  destruct (aliases !! spec_structural code) as [t|] eqn:E; simpl.
  - by destruct (Ha _ _ E).
  - by rewrite isascii_structural.
Qed.

End NormalizerFacts.

(** Whatever the global table, a provider that aliases [zh-CN] to [zh-Hans]
    normalises [ZH_cn] to [zh-Hans]. *)
Lemma normalize_ZH_cn_provider_alias (LANG_ALIASES : gmap string string) :
  normalize_lang_code LANG_ALIASES {["zh-CN" := "zh-Hans"]} "ZH_cn" = "zh-Hans".
Proof.
  rewrite normalize_lang_code_unfold. unfold spec_alias.
  change (spec_structural "ZH_cn") with "zh-CN".
  rewrite (provider_alias_wins _ _ "zh-CN" "zh-Hans"); [reflexivity|].
  apply lookup_singleton_eq.
Qed.

(** ** The registry *)

Ltac solve_projection :=
  simpl; repeat (case_decide; simpl in *); first [reflexivity | tauto].

Section RegistryFacts.

Variable LANG_ALIASES : gmap string string.
Variable lang_aliases : gmap string string.

Local Abbreviation normalize := (normalize_lang_code LANG_ALIASES lang_aliases).
Local Abbreviation add_lang' := (add_lang LANG_ALIASES lang_aliases).
Local Abbreviation add_langs' := (add_langs LANG_ALIASES lang_aliases).
Local Abbreviation nonstandard_ok' := (nonstandard_ok LANG_ALIASES lang_aliases).
Local Abbreviation langs_normalized' := (langs_normalized LANG_ALIASES lang_aliases).
Local Abbreviation slot_free_for' := (slot_free_for LANG_ALIASES lang_aliases).
Local Abbreviation no_rival' := (no_rival LANG_ALIASES lang_aliases).

Lemma add_lang_languages self o name (trans tts : bool) :
  languages (add_lang' self o name trans tts)
  = if trans then languages self ++ [normalize o] else languages self.
Proof.
  unfold add_lang.
  destruct trans, tts, name; solve_projection.
Qed.

Lemma add_lang_tts_languages self o name (trans tts : bool) :
  tts_languages (add_lang' self o name trans tts)
  = if tts then tts_languages self ++ [normalize o] else tts_languages self.
Proof.
  unfold add_lang.
  destruct trans, tts, name; solve_projection.
Qed.

Lemma add_lang_nonstandard self o name (trans tts : bool) :
  _nonstandard_langs (add_lang' self o name trans tts)
  = if decide (normalize o ≠ o ∧ _nonstandard_langs self !! normalize o = None)
    then <[normalize o := o]> (_nonstandard_langs self)
    else _nonstandard_langs self.
Proof.
  unfold add_lang.
  destruct trans, tts, name; solve_projection.
Qed.

Lemma add_lang_names self o name (trans tts : bool) :
  _languages_names (add_lang' self o name trans tts)
  = match name with
    | Some n =>
        if decide (_languages_names self !! normalize o = None)
        then <[normalize o := n]> (_languages_names self)
        else _languages_names self
    | None => _languages_names self
    end.
Proof.
  unfold add_lang.
  destruct trans, tts, name; solve_projection.
Qed.

(** First write wins: an entry of the nonstandard map is never replaced. *)
Lemma add_lang_keeps_entry self o name trans tts k v :
  _nonstandard_langs self !! k = Some v →
  _nonstandard_langs (add_lang' self o name trans tts) !! k = Some v.
Proof.
  intros H. rewrite add_lang_nonstandard. case_decide as D; [|exact H].
  destruct D as [_ D]. rewrite lookup_insert_ne; [exact H|]. congruence.
Qed.

Lemma add_langs_keeps_entry calls self k v :
  _nonstandard_langs self !! k = Some v →
  _nonstandard_langs (add_langs' self calls) !! k = Some v.
Proof.
  revert self. induction calls as [|a calls IH]; intros self H; [exact H|].
  apply IH, add_lang_keeps_entry, H.
Qed.

Lemma add_langs_app self pre post :
  add_langs' self (pre ++ post) = add_langs' (add_langs' self pre) post.
Proof. apply fold_left_app. Qed.

Lemma add_lang_nonstandard_ok self o name trans tts :
  nonstandard_ok' self → nonstandard_ok' (add_lang' self o name trans tts).
Proof.
  intros Hok k v. rewrite add_lang_nonstandard.
  case_decide as D; [|apply Hok].
  destruct D as [Hne _]. rewrite lookup_insert.
  case_decide as E; [|apply Hok].
  intros [= <-]. subst k. split; [exact Hne|reflexivity].
Qed.

Lemma add_lang_langs_normalized self o name trans tts :
  aliases_closed LANG_ALIASES lang_aliases →
  langs_normalized' self → langs_normalized' (add_lang' self o name trans tts).
Proof.
  intros Hc [Hl Ht]. split; intros c.
  - rewrite add_lang_languages. destruct trans; [|apply Hl].
    rewrite elem_of_app, list_elem_of_singleton. intros [H| ->]; [by apply Hl|].
    by apply normalize_idempotent_closed.
  - rewrite add_lang_tts_languages. destruct tts; [|apply Ht].
    rewrite elem_of_app, list_elem_of_singleton. intros [H| ->]; [by apply Ht|].
    by apply normalize_idempotent_closed.
Qed.

Lemma add_langs_nonstandard_ok calls self :
  nonstandard_ok' self → nonstandard_ok' (add_langs' self calls).
Proof.
  revert self. induction calls as [|a calls IH]; intros self H; [exact H|].
  apply IH, add_lang_nonstandard_ok, H.
Qed.

Lemma add_langs_langs_normalized calls self :
  aliases_closed LANG_ALIASES lang_aliases →
  langs_normalized' self → langs_normalized' (add_langs' self calls).
Proof.
  intros Hc. revert self.
  induction calls as [|a calls IH]; intros self H; [exact H|].
  apply IH, add_lang_langs_normalized; assumption.
Qed.

Lemma add_langs_isascii calls self :
  ascii_tables LANG_ALIASES lang_aliases →
  Forall (λ a, isascii (arg_code a) = true) calls →
  Forall (λ c, isascii c = true) (languages self ++ tts_languages self) →
  Forall (λ c, isascii c = true)
    (languages (add_langs' self calls) ++ tts_languages (add_langs' self calls)).
Proof.
  intros Ha Hcalls. revert self.
  induction Hcalls as [|a calls Hcode _ IH]; intros self H; [exact H|].
  apply IH. apply Forall_app in H as [Hl Ht].
  pose proof (normalize_isascii LANG_ALIASES lang_aliases _ Ha Hcode) as Hn.
  rewrite add_lang_languages, add_lang_tts_languages.
  apply Forall_app. split.
  - destruct (a.1.2); [|exact Hl]. apply Forall_app. split; [exact Hl|].
    by apply Forall_singleton.
  - destruct (a.2); [|exact Ht]. apply Forall_app. split; [exact Ht|].
    by apply Forall_singleton.
Qed.

Lemma add_langs_slot_free o pre self :
  Forall (no_rival' o) pre →
  slot_free_for' o self → slot_free_for' o (add_langs' self pre).
Proof.
  intros Hpre. revert self.
  induction Hpre as [|a pre Ha _ IH]; intros self Hs; [exact Hs|].
  apply IH. unfold slot_free_for in *. rewrite add_lang_nonstandard.
  case_decide as D; [|exact Hs].
  destruct D as [Hne Hfree].
  destruct (decide (normalize (arg_code a) = normalize o)) as [E|E].
  - destruct (Ha E) as [Hfix| ->]; [congruence|].
    right. apply lookup_insert_eq.
  - rewrite lookup_insert_ne by exact E. exact Hs.
Qed.

Lemma denormalize_lang_one self c :
  denormalize_lang self [c] = PyStr (denormalized self c).
Proof.
  unfold denormalize_lang, denormalized, dict_get. simpl.
  destruct (_ !! c); reflexivity.
Qed.

Lemma denormalize_lang_many self codes :
  length codes ≠ 1 →
  denormalize_lang self codes = PyTuple (map (denormalized self) codes).
Proof.
  intros H. unfold denormalize_lang. case_decide; [done|].
  rewrite fold_left_snoc_map. reflexivity.
Qed.

End RegistryFacts.

(** ** The URL helper *)

Section UrlFacts.

Lemma startswith_prefix (p s : string) :
  startswith p s = true ↔ ∃ r, s = p +:+ r.
Proof.
  revert s. induction p as [|a p IH]; intros s; simpl.
  - split; [intros _; by exists s|done].
  - destruct s as [|b s].
    + split; [done|]. intros [r Hr]. discriminate Hr.
    + rewrite andb_true_iff, IH. split.
      * intros [Hab [r ->]]. apply Ascii.eqb_eq in Hab as ->. by exists r.
      * intros [r Hr]. rewrite app_String in Hr. injection Hr as -> ->.
        split; [apply Ascii.eqb_refl|by exists r].
Qed.

Lemma urlencode_map (params : list (string * string)) :
  Urllib.urlencode params
  = join "&"
      (map (λ kv, Urllib.quote_plus kv.1 +:+ "=" +:+ Urllib.quote_plus kv.2) params).
Proof. unfold Urllib.urlencode. rewrite fold_left_snoc_map. reflexivity. Qed.

Lemma app_nonempty (s : string) (c : ascii) (t : string) :
  ∃ d r, s +:+ String c t = String d r.
Proof. destruct s as [|d s]; [by exists c, t|by exists d, (s +:+ String c t)]. Qed.

Lemma join_nonempty (sep : string) (c : ascii) (r : string) (l : list string) :
  ∃ d r', join sep (String c r :: l) = String d r'.
Proof. destruct l as [|q l]; [by exists c, r|]. by eexists c, _. Qed.

Lemma urlencode_nonempty (kv : string * string) (params : list (string * string)) :
  ∃ d r, Urllib.urlencode (kv :: params) = String d r.
Proof.
  rewrite urlencode_map. simpl.
  destruct (app_nonempty (Urllib.quote_plus kv.1) "=" (Urllib.quote_plus kv.2))
    as (d & r & E).
  change ("=" +:+ Urllib.quote_plus kv.2) with (String "=" (Urllib.quote_plus kv.2)).
  rewrite E. apply join_nonempty.
Qed.

Lemma format_url_query (params : list (string * string)) :
  match Urllib.urlencode params with
  | EmptyString => Urllib.urlencode params
  | _ => "?" +:+ Urllib.urlencode params
  end = spec_query params.
Proof.
  destruct params as [|kv params]; [reflexivity|].
  destruct (urlencode_nonempty kv params) as (d & r & E).
  rewrite E at 1. rewrite urlencode_map. reflexivity.
Qed.

End UrlFacts.

(** * The claims *)

(** The two checks let a text through that is neither empty nor over the
    limit: the exchange runs, the transport sees the request and [on_done]
    receives the outcome. *)
Lemma spec_translate_reaches_transport (self : BaseProvider)
    (text src dest : string) :
  text ≠ "" →
  chars_limit self = (-1)%Z ∨ (Z.of_nat (len text) ≤ chars_limit self)%Z →
  ∃ t, (spec_translate Observed echo_exchange self text src dest
          record_done record_fail nothing_observed)
       = ({| done_calls := [t]; fail_calls := []; requests := [text] |}, inr tt).
Proof.
  intros Hne Hl. unfold spec_translate.
  rewrite decide_False by exact Hne.
  rewrite decide_False by lia.
  by eexists.
Qed.

(** C1.  For every provider state, every source and destination code and
    whatever the exchange with the service would do, a concrete [translate]
    called with the empty text calls [on_fail] exactly once, with an [EMPTY]
    error, calls [on_done] not at all and sends nothing to the transport;
    and called with a non-empty text longer than a [chars_limit] that is not
    the sentinel -1 it calls [on_fail] exactly once, with a
    [CHARACTERS_LIMIT_EXCEEDED] error, again without [on_done] and without
    the transport. *)
Theorem spec_translate_rejects_early
    (exchange : BaseProvider → string → string → string →
                (Translation → Op Observed unit) →
                (ProviderError → Op Observed unit) → Op Observed unit)
    (self : BaseProvider) (text src dest : string) :
  (∃ e, spec_translate Observed exchange self "" src dest
          record_done record_fail nothing_observed
        = ({| done_calls := []; fail_calls := [e]; requests := [] |}, inr tt)
        ∧ code e = EMPTY)
  ∧ (text ≠ "" →
     chars_limit self ≠ (-1)%Z →
     (chars_limit self < Z.of_nat (len text))%Z →
     ∃ e, spec_translate Observed exchange self text src dest
            record_done record_fail nothing_observed
          = ({| done_calls := []; fail_calls := [e]; requests := [] |}, inr tt)
          ∧ code e = CHARACTERS_LIMIT_EXCEEDED).
Proof.
  split.
  - by eexists.
  - intros Hne Hs Hl. unfold spec_translate.
    rewrite decide_False by exact Hne.
    rewrite decide_True by done.
    by eexists.
Qed.

Lemma spec_translate_rejects_early_witness :
  ∃ e, spec_translate Observed echo_exchange
         (with_chars_limit (init empty_store) 5) "abcdefgh" "en" "fr"
         record_done record_fail nothing_observed
       = ({| done_calls := []; fail_calls := [e]; requests := [] |}, inr tt)
       ∧ code e = CHARACTERS_LIMIT_EXCEEDED.
Proof.
  apply (proj2 (spec_translate_rejects_early echo_exchange
                  (with_chars_limit (init empty_store) 5) "abcdefgh" "en" "fr")).
  - discriminate.
  - discriminate.
  - reflexivity.
Defined.

(** C2, counterexample.  With the global alias [zh-CN -> zh-Hans] and the
    provider alias [zh -> zh-CN] the code [zh] normalises to [zh-CN], and
    [zh-CN] normalises to [zh-Hans]. *)
Lemma normalize_alias_chain :
  normalize_lang_code {["zh-CN" := "zh-Hans"]} {["zh" := "zh-CN"]}
    (normalize_lang_code {["zh-CN" := "zh-Hans"]} {["zh" := "zh-CN"]} "zh")
  ≠ normalize_lang_code {["zh-CN" := "zh-Hans"]} {["zh" := "zh-CN"]} "zh".
Proof. vm_compute. discriminate. Qed.

(** C2, as amended.  For ASCII alias tables, normalisation is idempotent on
    ASCII codes exactly when every alias target whose key is a result of the
    structural step is a fixed point of the normaliser; the empty tables are
    among these. *)
Theorem normalize_lang_code_idempotent (LANG_ALIASES lang_aliases : gmap string string) :
  ascii_tables LANG_ALIASES lang_aliases →
  aliases_closed LANG_ALIASES lang_aliases
  ↔ ∀ x : string,
      isascii x = true →
      normalize_lang_code LANG_ALIASES lang_aliases
        (normalize_lang_code LANG_ALIASES lang_aliases x)
      = normalize_lang_code LANG_ALIASES lang_aliases x.
Proof.
  intros Ha. split.
  - intros Hc x _. by apply normalize_idempotent_closed.
  - by apply idempotent_aliases_closed.
Qed.

Lemma empty_tables_closed :
  ascii_tables ∅ base_lang_aliases ∧ aliases_closed ∅ base_lang_aliases.
Proof.
  unfold ascii_tables, aliases_closed, merged_aliases, base_lang_aliases.
  rewrite (left_id_L ∅ (∪)). split; apply map_Forall_empty.
Qed.

Lemma sample_aliases_closed :
  aliases_closed {["iw" := "he"; "zh-CN" := "zh-Hans"]} ∅.
Proof.
  unfold aliases_closed, merged_aliases.
  rewrite (left_id_L ∅ (∪)).
  apply map_Forall_insert_2; [intros _; vm_compute; reflexivity|].
  apply map_Forall_insert_2; [intros _; vm_compute; reflexivity|].
  apply map_Forall_empty.
Defined.

Lemma sample_ascii_tables :
  ascii_tables {["iw" := "he"; "zh-CN" := "zh-Hans"]} ∅.
Proof.
  unfold ascii_tables, merged_aliases.
  rewrite (left_id_L ∅ (∪)).
  apply map_Forall_insert_2; [split; reflexivity|].
  apply map_Forall_insert_2; [split; reflexivity|].
  apply map_Forall_empty.
Defined.

Lemma normalize_lang_code_idempotent_witness :
  normalize_lang_code {["iw" := "he"; "zh-CN" := "zh-Hans"]} ∅
    (normalize_lang_code {["iw" := "he"; "zh-CN" := "zh-Hans"]} ∅ "ZH_cn")
  = normalize_lang_code {["iw" := "he"; "zh-CN" := "zh-Hans"]} ∅ "ZH_cn".
Proof.
  apply (proj1 (normalize_lang_code_idempotent
                  {["iw" := "he"; "zh-CN" := "zh-Hans"]} ∅
                  sample_ascii_tables)).
  - exact sample_aliases_closed.
  - reflexivity.
Defined.

(** C3, counterexample.  After [add_lang("ZH_cn")] and [add_lang("zh_CN")]
    the code [zh_CN] differs from its normal form, yet denormalising that
    normal form gives [ZH_cn], the first code registered for it. *)
Lemma denormalize_first_write_wins :
  normalize_lang_code ∅ base_lang_aliases "zh_CN" ≠ "zh_CN"
  ∧ denormalize_lang
      (add_langs ∅ base_lang_aliases (init empty_store)
         [("ZH_cn", None, true, false); ("zh_CN", None, true, false)])
      [normalize_lang_code ∅ base_lang_aliases "zh_CN"]
    ≠ PyStr "zh_CN".
Proof. split; vm_compute; discriminate. Qed.

(** C3, as amended.  In any run of [add_lang] calls on a fresh provider, a
    code [o] that normalisation changes is recovered from its normal form by
    [denormalize_lang] provided no earlier call registered a different
    changed code with the same normal form. *)
Theorem denormalize_roundtrip_first (LANG_ALIASES lang_aliases : gmap string string)
    (store : Settings) (pre post : list add_lang_args) (a : add_lang_args) :
  normalize_lang_code LANG_ALIASES lang_aliases (arg_code a) ≠ arg_code a →
  Forall (no_rival LANG_ALIASES lang_aliases (arg_code a)) pre →
  denormalize_lang
    (add_langs LANG_ALIASES lang_aliases (init store) (pre ++ a :: post))
    [normalize_lang_code LANG_ALIASES lang_aliases (arg_code a)]
  = PyStr (arg_code a).
Proof.
  intros Hne Hpre.
  rewrite denormalize_lang_one. f_equal. unfold denormalized.
  rewrite add_langs_app. simpl.
  set (s := add_langs LANG_ALIASES lang_aliases (init store) pre).
  assert (Hs : slot_free_for LANG_ALIASES lang_aliases (arg_code a) s).
  { apply add_langs_slot_free; [exact Hpre|]. left. apply lookup_empty. }
  change (fold_left _ post ?x) with (add_langs LANG_ALIASES lang_aliases x post).
  erewrite add_langs_keeps_entry; [reflexivity|].
  rewrite add_lang_nonstandard. fold (arg_code a).
  case_decide as D.
  - apply lookup_insert_eq.
  - destruct Hs as [Hs|Hs]; [|exact Hs]. exfalso. apply D. split; assumption.
Qed.

Lemma denormalize_roundtrip_first_witness :
  denormalize_lang
    (add_langs ∅ base_lang_aliases (init empty_store)
       ([("en", None, true, false); ("zh-CN", None, true, false)]
        ++ ("zh_CN", Some "Chinese", true, false)
        :: [("ZH_cn", None, true, true)]))
    [normalize_lang_code ∅ base_lang_aliases "zh_CN"]
  = PyStr "zh_CN".
Proof.
  apply (denormalize_roundtrip_first ∅ ∅ empty_store
           [("en", None, true, false); ("zh-CN", None, true, false)]
           [("ZH_cn", None, true, true)]
           ("zh_CN", Some "Chinese", true, false)).
  - vm_compute. discriminate.
  - repeat constructor; intros _; left; vm_compute; reflexivity.
Defined.

(** C4, counterexample.  With the global alias [zh-CN -> zh-Hans] the code
    [ZH_cn] does not normalise to [zh-CN]. *)
Lemma normalize_ZH_cn_aliased :
  normalize_lang_code {["zh-CN" := "zh-Hans"]} base_lang_aliases "ZH_cn" ≠ "zh-CN".
Proof. vm_compute. discriminate. Qed.

(** C4, as amended.  [normalize_lang_code] is the structural step of the
    specification (underscores to hyphens, lower-casing, and on exactly two
    parts a capitalised four-character or upper-cased two-character second
    part) followed by one lookup in the merged alias table, never the other
    way round.  The structural step takes [ZH_cn] to [zh-CN], [zh-hans] to
    [zh-Hans] and [EN] to [en], and these are the results of
    [normalize_lang_code] whenever the merged table has no entry for
    them. *)
Theorem normalize_lang_code_structure :
  (∀ (LANG_ALIASES lang_aliases : gmap string string) (x : string),
     normalize_lang_code LANG_ALIASES lang_aliases x
     = spec_alias (merged_aliases LANG_ALIASES lang_aliases) (spec_structural x))
  ∧ spec_structural "ZH_cn" = "zh-CN"
  ∧ spec_structural "zh-hans" = "zh-Hans"
  ∧ spec_structural "EN" = "en"
  ∧ (∀ LANG_ALIASES lang_aliases : gmap string string,
       merged_aliases LANG_ALIASES lang_aliases !! "zh-CN" = None →
       normalize_lang_code LANG_ALIASES lang_aliases "ZH_cn" = "zh-CN")
  ∧ (∀ LANG_ALIASES lang_aliases : gmap string string,
       merged_aliases LANG_ALIASES lang_aliases !! "zh-Hans" = None →
       normalize_lang_code LANG_ALIASES lang_aliases "zh-hans" = "zh-Hans")
  ∧ (∀ LANG_ALIASES lang_aliases : gmap string string,
       merged_aliases LANG_ALIASES lang_aliases !! "en" = None →
       normalize_lang_code LANG_ALIASES lang_aliases "EN" = "en").
Proof.
  split; [exact normalize_lang_code_unfold|].
  do 3 (split; [reflexivity|]).
  repeat split; intros LA la H; rewrite normalize_lang_code_unfold;
    unfold spec_alias.
  - change (spec_structural "ZH_cn") with "zh-CN". by rewrite H.
  - change (spec_structural "zh-hans") with "zh-Hans". by rewrite H.
  - change (spec_structural "EN") with "en". by rewrite H.
Qed.

Lemma normalize_lang_code_structure_witness :
  normalize_lang_code {["iw" := "he"]} ∅ "ZH_cn" = "zh-CN"
  ∧ normalize_lang_code {["iw" := "he"]} ∅ "zh-hans" = "zh-Hans"
  ∧ normalize_lang_code {["iw" := "he"]} ∅ "EN" = "en".
Proof.
  destruct normalize_lang_code_structure as (_ & _ & _ & _ & H1 & H2 & H3).
  split; [|split].
  - apply H1. vm_compute. reflexivity.
  - apply H2. vm_compute. reflexivity.
  - apply H3. vm_compute. reflexivity.
Defined.

(** C5.  Given exactly one code, [denormalize_lang] returns a string: the
    original recorded for the code in the nonstandard map, or the code
    itself.  Given any other number of codes (none included) it returns a
    tuple as long as the input whose [i]-th item is the denormalisation of
    the [i]-th code. *)
Theorem denormalize_lang_arity (self : BaseProvider) :
  (∀ c : string, denormalize_lang self [c] = PyStr (denormalized self c))
  ∧ (∀ codes : list string,
       length codes ≠ 1 →
       ∃ items,
         denormalize_lang self codes = PyTuple items
         ∧ length items = length codes
         ∧ ∀ (i : nat) (c : string),
             codes !! i = Some c → items !! i = Some (denormalized self c)).
Proof.
  split; [apply denormalize_lang_one|].
  intros codes H. exists (map (denormalized self) codes).
  split; [by apply denormalize_lang_many|].
  split; [apply length_map|].
  intros i c Hi. change (map ?f ?l) with (f <$> l).
  by rewrite list_lookup_fmap, Hi.
Qed.

Lemma denormalize_lang_arity_witness :
  ∃ items,
    denormalize_lang
      (add_lang ∅ base_lang_aliases (init empty_store) "zh_CN" None true false) ["zh-CN"; "en"]
    = PyTuple items
    ∧ length items = 2
    ∧ items !! 0 = Some "zh_CN" ∧ items !! 1 = Some "en".
Proof.
  destruct (proj2 (denormalize_lang_arity
                     (add_lang ∅ base_lang_aliases (init empty_store) "zh_CN" None true false))
              ["zh-CN"; "en"])
    as (items & E & L & H).
  - simpl. lia.
  - exists items. split; [exact E|]. split; [exact L|]. split.
    + apply (H 0 "zh-CN"). reflexivity.
    + apply (H 1 "en"). reflexivity.
Defined.

(** C6, counterexample.  When the locale service knows no name and the
    provider recorded none, the display name of the empty code is the empty
    string. *)
Lemma get_lang_name_empty :
  get_lang_name (λ _, None) (init empty_store) "" = "".
Proof. reflexivity. Qed.

(** C6, as amended.  [get_lang_name] always returns a string (it has no
    failing path): the name of the locale service when that yields one,
    otherwise the name the provider recorded for the code, otherwise the
    code.  The result is empty only if the value of the tier that applies is
    empty. *)
Theorem get_lang_name_fallback (locale_lang_name : string → option string)
    (self : BaseProvider) (c : string) :
  (∀ name, locale_lang_name c = Some name →
     get_lang_name locale_lang_name self c = name)
  ∧ (∀ name, locale_lang_name c = None →
       _languages_names self !! c = Some name →
       get_lang_name locale_lang_name self c = name)
  ∧ (locale_lang_name c = None →
     _languages_names self !! c = None →
     get_lang_name locale_lang_name self c = c)
  ∧ (get_lang_name locale_lang_name self c = "" →
     locale_lang_name c = Some ""
     ∨ (locale_lang_name c = None ∧ _languages_names self !! c = Some "")
     ∨ (locale_lang_name c = None ∧ _languages_names self !! c = None ∧ c = "")).
Proof.
  unfold get_lang_name, dict_get.
  repeat split.
  - by intros name ->.
  - by intros name -> ->.
  - by intros -> ->.
  - destruct (locale_lang_name c) as [n|]; [intros ->; by left|].
    destruct (_languages_names self !! c) as [n|]; simpl; intros ->; auto.
Qed.

Lemma get_lang_name_fallback_witness :
  get_lang_name (λ c, if decide (c = "fr") then Some "French" else None)
    (add_lang ∅ base_lang_aliases (init empty_store) "tlh" (Some "Klingon") true false) "fr"
  = "French"
  ∧ get_lang_name (λ c, if decide (c = "fr") then Some "French" else None)
      (add_lang ∅ base_lang_aliases (init empty_store) "tlh" (Some "Klingon") true false) "tlh"
    = "Klingon"
  ∧ get_lang_name (λ c, if decide (c = "fr") then Some "French" else None)
      (add_lang ∅ base_lang_aliases (init empty_store) "tlh" (Some "Klingon") true false) "xx"
    = "xx".
Proof.
  split; [|split].
  - apply (proj1 (get_lang_name_fallback _ _ "fr")). reflexivity.
  - apply (proj1 (proj2 (get_lang_name_fallback _ _ "tlh")));
      vm_compute; reflexivity.
  - apply (proj1 (proj2 (proj2 (get_lang_name_fallback _ _ "xx"))));
      vm_compute; reflexivity.
Defined.

(** C7.  [format_url] yields scheme, host, path and query in this order; the
    path it emits begins with [/] (the given path when that already does,
    else the given path behind a [/]); the scheme is [http://] exactly when
    the host begins with [localhost:] or the [http] flag is set, and
    [https://] otherwise; the query is empty for an empty parameter dict and
    otherwise [?] followed by the [&]-joined encoded pairs.  The two
    documented URLs come out as specified. *)
Theorem format_url_composition :
  (∀ (url path : string) (params : list (string * string)) (http : bool),
     ∃ scheme path',
       format_url url path params http
       = scheme +:+ url +:+ path' +:+ spec_query params
       ∧ (∃ r, path' = "/" +:+ r)
       ∧ ((∃ r, path = "/" +:+ r) → path' = path)
       ∧ (¬ (∃ r, path = "/" +:+ r) → path' = "/" +:+ path)
       ∧ (scheme = "http://" ∨ scheme = "https://")
       ∧ (scheme = "http://" ↔ (∃ r, url = "localhost:" +:+ r) ∨ http = true))
  ∧ format_url "libretranslate.com" "translate" [("q", "hi")] false
    = "https://libretranslate.com/translate?q=hi"
  ∧ format_url "localhost:5000" "detect" [] false = "http://localhost:5000/detect".
Proof.
  split; [|split; reflexivity].
  intros url path params http. unfold format_url.
  rewrite format_url_query.
  exists (if startswith "localhost:" url || http then "http://" else "https://").
  exists (if negb (startswith "/" path) then "/" +:+ path else path).
  split; [reflexivity|].
  pose proof (startswith_prefix "/" path) as Hp.
  pose proof (startswith_prefix "localhost:" url) as Hu.
  split; [|split; [|split; [|split]]].
  - destruct (startswith "/" path); simpl; [by apply Hp|by exists path].
  - intros H. apply Hp in H. by rewrite H.
  - intros H. destruct (startswith "/" path); [|reflexivity].
    exfalso. by apply H, Hp.
  - destruct (_ || _); auto.
  - destruct (startswith "localhost:" url) eqn:E; simpl.
    + split; [intros _; left; by apply Hu|done].
    + destruct http; simpl; [split; auto|].
      split; [done|]. intros [H|H]; [|done]. apply Hu in H. done.
Qed.

Lemma format_url_composition_witness :
  ∃ scheme path',
    format_url "localhost:5000" "detect" [] false
    = scheme +:+ "localhost:5000" +:+ path' +:+ spec_query []
    ∧ scheme = "http://" ∧ path' = "/detect".
Proof.
  destruct (proj1 format_url_composition "localhost:5000" "detect" [] false)
    as (scheme & path' & E & _ & _ & Hp & _ & Hs).
  exists scheme, path'. split; [exact E|]. split.
  - apply Hs. left. by exists "5000".
  - apply Hp. intros [r Hr]. discriminate Hr.
Defined.

(** C8.  Whenever the store holds no [src-langs] value, or holds the empty
    list, the [src_langs] accessor returns [en; fr; es; de].
    [reset_src_langs] writes the empty list into the store, and the accessor
    returns the same default afterwards. *)
Theorem src_langs_default (self : BaseProvider) :
  (strv_keys (settings self) !! "src-langs" = None →
   src_langs self = ["en"; "fr"; "es"; "de"])
  ∧ (strv_keys (settings self) !! "src-langs" = Some [] →
     src_langs self = ["en"; "fr"; "es"; "de"])
  ∧ strv_keys (settings (reset_src_langs self)) !! "src-langs" = Some []
  ∧ src_langs (reset_src_langs self) = ["en"; "fr"; "es"; "de"].
Proof.
  unfold src_langs, get_strv, reset_src_langs, set_src_langs. simpl.
  repeat split.
  - by intros ->.
  - by intros ->.
  - apply lookup_insert_eq.
  - by rewrite lookup_insert_eq.
Qed.

Lemma src_langs_default_witness :
  src_langs (init empty_store) = ["en"; "fr"; "es"; "de"]
  ∧ src_langs (set_src_langs (init empty_store) []) = ["en"; "fr"; "es"; "de"].
Proof.
  split.
  - apply (proj1 (src_langs_default (init empty_store))). reflexivity.
  - apply (proj1 (proj2 (src_langs_default (set_src_langs (init empty_store) [])))).
    vm_compute. reflexivity.
Defined.

(** C9, counterexample.  With the global alias [zh-CN -> zh-Hans] and the
    provider alias [zh -> zh-CN], [add_lang("zh")] on a fresh provider stores
    [zh-CN] in [languages], and [zh-CN] is not a fixed point of the
    normaliser. *)
Lemma languages_not_normalized :
  ¬ (∀ c : string,
       c ∈ languages
             (add_langs {["zh-CN" := "zh-Hans"]} {["zh" := "zh-CN"]}
                (init empty_store) [("zh", None, true, false)]) →
       normalize_lang_code {["zh-CN" := "zh-Hans"]} {["zh" := "zh-CN"]} c = c).
Proof.
  intros H. specialize (H "zh-CN").
  assert (E : normalize_lang_code {["zh-CN" := "zh-Hans"]} {["zh" := "zh-CN"]}
                "zh-CN" = "zh-Hans")
    by (vm_compute; reflexivity).
  rewrite E in H. discriminate H. vm_compute. apply list_elem_of_here.
Qed.

(** C9, as amended.  After any run of [add_lang] calls on a fresh provider
    every key of the nonstandard map differs from the original stored for it
    and is the normal form of that original.  When moreover the alias tables
    and the codes passed to the calls are ASCII and every alias target whose
    key is a result of the structural step is a fixed point of the
    normaliser, every code in [languages] and in [tts_languages] is a fixed
    point of the normaliser too, and is ASCII. *)
Theorem add_langs_invariant (LANG_ALIASES lang_aliases : gmap string string)
    (store : Settings) (calls : list add_lang_args) :
  nonstandard_ok LANG_ALIASES lang_aliases
    (add_langs LANG_ALIASES lang_aliases (init store) calls)
  ∧ (ascii_tables LANG_ALIASES lang_aliases →
     aliases_closed LANG_ALIASES lang_aliases →
     Forall (λ a, isascii (arg_code a) = true) calls →
     langs_normalized LANG_ALIASES lang_aliases
       (add_langs LANG_ALIASES lang_aliases (init store) calls)
     ∧ Forall (λ c, isascii c = true)
         (languages (add_langs LANG_ALIASES lang_aliases (init store) calls)
          ++ tts_languages
               (add_langs LANG_ALIASES lang_aliases (init store) calls))).
Proof.
  split.
  - apply add_langs_nonstandard_ok. intros k o H.
    simpl in H. by rewrite lookup_empty in H.
  - intros Ha Hc Hcalls. split.
    + apply add_langs_langs_normalized; [exact Hc|].
      split; intros c H; simpl in H; by apply elem_of_nil in H.
    + apply add_langs_isascii; [exact Ha|exact Hcalls|]. simpl. constructor.
Qed.

Lemma add_langs_invariant_witness :
  langs_normalized {["iw" := "he"; "zh-CN" := "zh-Hans"]} ∅
    (add_langs {["iw" := "he"; "zh-CN" := "zh-Hans"]} ∅ (init empty_store)
       [("ZH_cn", None, true, true); ("iw", Some "Hebrew", true, false)]).
Proof.
  apply (proj2 (add_langs_invariant {["iw" := "he"; "zh-CN" := "zh-Hans"]} ∅
                  empty_store
                  [("ZH_cn", None, true, true); ("iw", Some "Hebrew", true, false)])).
  - exact sample_ascii_tables.
  - exact sample_aliases_closed.
  - repeat constructor.
Defined.

(** C10.  [add_lang] with both list flags off leaves [languages] and
    [tts_languages] as they were, and still records the original code under
    its normal form when normalisation changed it and the slot was free, and
    the given display name when the code had none. *)
Theorem add_lang_flags_off (LANG_ALIASES lang_aliases : gmap string string)
    (self : BaseProvider) (o : string) (name : option string) :
  let n := normalize_lang_code LANG_ALIASES lang_aliases o in
  let self' := add_lang LANG_ALIASES lang_aliases self o name false false in
  languages self' = languages self
  ∧ tts_languages self' = tts_languages self
  ∧ (n ≠ o → _nonstandard_langs self !! n = None →
     _nonstandard_langs self' !! n = Some o)
  ∧ (∀ display, name = Some display → _languages_names self !! n = None →
       _languages_names self' !! n = Some display).
Proof.
  intros n self'. unfold self'.
  rewrite add_lang_languages, add_lang_tts_languages,
    add_lang_nonstandard, add_lang_names.
  fold n. repeat split.
  - intros H1 H2. rewrite decide_True by done. apply lookup_insert_eq.
  - intros display -> H. rewrite decide_True by done. apply lookup_insert_eq.
Qed.

Lemma add_lang_flags_off_witness :
  _nonstandard_langs
    (add_lang ∅ base_lang_aliases (init empty_store) "pt_BR" (Some "Portuguese") false false)
  !! "pt-BR" = Some "pt_BR"
  ∧ _languages_names
      (add_lang ∅ base_lang_aliases (init empty_store) "pt_BR" (Some "Portuguese") false false)
    !! "pt-BR" = Some "Portuguese".
Proof.
  pose proof (add_lang_flags_off ∅ ∅ (init empty_store) "pt_BR" (Some "Portuguese"))
    as (_ & _ & H1 & H2).
  split.
  - apply H1; [vm_compute; discriminate|reflexivity].
  - apply (H2 "Portuguese"); reflexivity.
Defined.

(** * Further properties *)

(** ** Settings accessors *)

Lemma str_or_empty_default (a : string) : str_or a "" = a.
Proof. by destruct a. Qed.

Lemma list_or_nonempty {A} (a b : list A) : a ≠ [] → list_or a b = a.
Proof. by destruct a. Qed.

(** X1.  A non-empty list written through the [src_langs] or [dest_langs]
    setter is what the accessor returns afterwards. *)
Theorem langs_setter_roundtrip (self : BaseProvider) (langs : list string) :
  langs ≠ [] →
  src_langs (set_src_langs self langs) = langs
  ∧ dest_langs (set_dest_langs self langs) = langs.
Proof.
  intros H. unfold src_langs, dest_langs, set_src_langs, set_dest_langs, get_strv.
  simpl. rewrite !lookup_insert_eq. simpl.
  split; by apply list_or_nonempty.
Qed.

Lemma langs_setter_roundtrip_witness :
  src_langs (set_src_langs (init empty_store) ["pt"; "ja"]) = ["pt"; "ja"]
  ∧ dest_langs (set_dest_langs (init empty_store) ["pt"; "ja"]) = ["pt"; "ja"].
Proof. apply (langs_setter_roundtrip (init empty_store) ["pt"; "ja"]). discriminate. Defined.

(** X2.  The [instance_url] and [api_key] accessors return exactly the value
    last written, the empty string included (their declared defaults are
    empty), so after a reset, and on a store that never held the key, both
    read as the empty string. *)
Theorem string_settings_roundtrip (self : BaseProvider) (value : string) :
  instance_url (set_instance_url self value) = value
  ∧ api_key (set_api_key self value) = value
  ∧ instance_url (reset_instance_url self) = ""
  ∧ api_key (reset_api_key self) = ""
  ∧ instance_url (init empty_store) = ""
  ∧ api_key (init empty_store) = "".
Proof.
  unfold instance_url, api_key, reset_instance_url, reset_api_key,
    set_instance_url, set_api_key, get_string.
  simpl. rewrite !lookup_insert_eq. simpl.
  unfold defaults.instance_url, defaults.api_key.
  rewrite str_or_empty_default. done.
Qed.

(** X3.  When the store holds no [dest-langs] value or holds the empty list,
    [dest_langs] returns [fr; es; de; en]; [reset_dest_langs] writes the empty
    list and the accessor returns that default afterwards. *)
Theorem dest_langs_default (self : BaseProvider) :
  (strv_keys (settings self) !! "dest-langs" = None →
   dest_langs self = ["fr"; "es"; "de"; "en"])
  ∧ (strv_keys (settings self) !! "dest-langs" = Some [] →
     dest_langs self = ["fr"; "es"; "de"; "en"])
  ∧ strv_keys (settings (reset_dest_langs self)) !! "dest-langs" = Some []
  ∧ dest_langs (reset_dest_langs self) = ["fr"; "es"; "de"; "en"].
Proof.
  unfold dest_langs, get_strv, reset_dest_langs, set_dest_langs. simpl.
  repeat split.
  - by intros ->.
  - by intros ->.
  - apply lookup_insert_eq.
  - by rewrite lookup_insert_eq.
Qed.

Lemma dest_langs_default_witness :
  dest_langs (init empty_store) = ["fr"; "es"; "de"; "en"]
  ∧ dest_langs (set_dest_langs (init empty_store) []) = ["fr"; "es"; "de"; "en"].
Proof.
  split.
  - apply (proj1 (dest_langs_default (init empty_store))). reflexivity.
  - apply (proj1 (proj2 (dest_langs_default (set_dest_langs (init empty_store) [])))).
    vm_compute. reflexivity.
Defined.

(** X4.  The four settings are independent: writing one of [instance-url],
    [api-key], [src-langs], [dest-langs] leaves what the accessors of the
    other three return unchanged. *)
Theorem settings_independent (self : BaseProvider) (value : string)
    (langs : list string) :
  (api_key (set_instance_url self value) = api_key self
   ∧ src_langs (set_instance_url self value) = src_langs self
   ∧ dest_langs (set_instance_url self value) = dest_langs self)
  ∧ (instance_url (set_api_key self value) = instance_url self
     ∧ src_langs (set_api_key self value) = src_langs self
     ∧ dest_langs (set_api_key self value) = dest_langs self)
  ∧ (instance_url (set_src_langs self langs) = instance_url self
     ∧ api_key (set_src_langs self langs) = api_key self
     ∧ dest_langs (set_src_langs self langs) = dest_langs self)
  ∧ (instance_url (set_dest_langs self langs) = instance_url self
     ∧ api_key (set_dest_langs self langs) = api_key self
     ∧ src_langs (set_dest_langs self langs) = src_langs self).
Proof.
  unfold instance_url, api_key, src_langs, dest_langs,
    set_instance_url, set_api_key, set_src_langs, set_dest_langs,
    get_string, get_strv.
  simpl. rewrite !lookup_insert_ne by discriminate. done.
Qed.

(** X5.  A later write replaces an earlier one: writing a setting twice
    leaves the provider in the state the second write alone produces. *)
Theorem settings_last_write_wins (self : BaseProvider) (v1 v2 : string)
    (l1 l2 : list string) :
  set_instance_url (set_instance_url self v1) v2 = set_instance_url self v2
  ∧ set_api_key (set_api_key self v1) v2 = set_api_key self v2
  ∧ set_src_langs (set_src_langs self l1) l2 = set_src_langs self l2
  ∧ set_dest_langs (set_dest_langs self l1) l2 = set_dest_langs self l2.
Proof.
  unfold set_instance_url, set_api_key, set_src_langs, set_dest_langs,
    with_settings, set_string, set_strv.
  simpl. rewrite !insert_insert_eq. done.
Qed.

(** ** The URL helper, continued *)

Lemma count_char_app (c : ascii) (s t : string) :
  count_char c (s +:+ t) = count_char c s + count_char c t.
Proof.
  induction s as [|d s IH]; [reflexivity|].
  rewrite app_String. simpl. rewrite IH. lia.
Qed.

Lemma split_no_sep (sep : ascii) (s : string) :
  count_char sep s = 0 → split sep s = [s].
Proof.
  induction s as [|d s IH]; [reflexivity|].
  simpl. destruct (Ascii.eqb d sep); [discriminate|].
  intros H. by rewrite IH.
Qed.

Lemma split_app_sep (sep : ascii) (a b : string) :
  count_char sep a = 0 →
  split sep (a +:+ String sep b) = a :: split sep b.
Proof.
  induction a as [|d a IH].
  - intros _. change ("" +:+ String sep b) with (String sep b).
    simpl. by rewrite Ascii.eqb_refl.
  - rewrite app_String. simpl. destruct (Ascii.eqb d sep); [discriminate|].
    intros H. by rewrite IH.
Qed.

Lemma split_join (sep : ascii) (parts : list string) :
  parts ≠ [] →
  Forall (λ p, count_char sep p = 0) parts →
  split sep (join (String sep "") parts) = parts.
Proof.
  intros Hne H. induction H as [|p parts Hp Hparts IH]; [done|].
  destruct parts as [|q parts].
  - simpl. by apply split_no_sep.
  - change (join (String sep "") (p :: q :: parts))
      with (p +:+ String sep (join (String sep "") (q :: parts))).
    rewrite split_app_sep by exact Hp. f_equal. by apply IH.
Qed.

Lemma length_split (sep : ascii) (s : string) :
  length (split sep s) = S (count_char sep s).
Proof.
  induction s as [|d s IH]; [reflexivity|].
  simpl. destruct (Ascii.eqb d sep); simpl.
  - by rewrite IH.
  - destruct (split sep s); simpl in *; lia.
Qed.

Lemma always_safe_not_separator (c : ascii) :
  Urllib.always_safe c = true →
  Ascii.eqb c "&" = false ∧ Ascii.eqb c "=" = false.
Proof. destruct c as [[] [] [] [] [] [] [] []]; vm_compute; intuition discriminate. Qed.

Lemma percent_no_separator (c : ascii) :
  count_char "&" (Urllib.percent c) = 0 ∧ count_char "=" (Urllib.percent c) = 0.
Proof. destruct c as [[] [] [] [] [] [] [] []]; vm_compute; done. Qed.

(** An encoded key or value holds neither [&] nor [=]. *)
Lemma quote_plus_no_separator (s : string) :
  count_char "&" (Urllib.quote_plus s) = 0
  ∧ count_char "=" (Urllib.quote_plus s) = 0.
Proof.
  induction s as [|c s [IH1 IH2]]; [done|].
  simpl. destruct (Ascii.eqb c " ").
  - simpl. done.
  - destruct (Urllib.always_safe c) eqn:Hs.
    + destruct (always_safe_not_separator c Hs) as [H1 H2].
      simpl. rewrite H1, H2. done.
    + destruct (percent_no_separator c) as [H1 H2].
      rewrite !count_char_app, H1, H2, IH1, IH2. done.
Qed.

Lemma encoded_pair_no_ampersand (kv : string * string) :
  count_char "&" (encoded_pair kv) = 0.
Proof.
  unfold encoded_pair.
  change ("=" +:+ Urllib.quote_plus kv.2) with (String "=" (Urllib.quote_plus kv.2)).
  rewrite count_char_app. simpl.
  destruct (quote_plus_no_separator kv.1) as [-> _].
  destruct (quote_plus_no_separator kv.2) as [-> _]. done.
Qed.

(** X6.  A path given without its leading [/] yields the same URL as the
    path given with it. *)
Theorem format_url_leading_slash (url path : string)
    (params : list (string * string)) (http : bool) :
  ¬ (∃ r, path = "/" +:+ r) →
  format_url url path params http = format_url url ("/" +:+ path) params http.
Proof.
  intros H. unfold format_url.
  destruct (startswith "/" path) eqn:E.
  - exfalso. by apply H, startswith_prefix.
  - reflexivity.
Qed.

Lemma format_url_leading_slash_witness :
  format_url "lt.example.org" "languages" [] false
  = format_url "lt.example.org" "/languages" [] false.
Proof.
  apply (format_url_leading_slash "lt.example.org" "languages" [] false).
  intros [r Hr]. discriminate Hr.
Defined.

(** X7.  For a host that begins with [localhost:] the [http] flag is
    ignored: the URL is the plain-HTTP one whatever the flag says. *)
Theorem format_url_localhost_ignores_flag (url path : string)
    (params : list (string * string)) (http : bool) :
  (∃ r, url = "localhost:" +:+ r) →
  format_url url path params http = format_url url path params true
  ∧ ∃ rest, format_url url path params http = "http://localhost:" +:+ rest.
Proof.
  intros H. pose proof H as [r ->].
  apply startswith_prefix in H. unfold format_url. rewrite H. simpl.
  split; [reflexivity|]. by eexists.
Qed.

Lemma format_url_localhost_ignores_flag_witness :
  format_url "localhost:5000" "detect" [] false
  = format_url "localhost:5000" "detect" [] true.
Proof.
  apply (format_url_localhost_ignores_flag "localhost:5000" "detect" [] false).
  by exists "5000".
Defined.

(** X8.  Keys and values cannot smuggle separators into the query: for a
    non-empty parameter dict, splitting the encoded query at [&] gives back
    exactly one [k=v] item per parameter, in order, and splitting an item at
    [=] gives back exactly the encoded key and the encoded value. *)
Theorem urlencode_items_recoverable (params : list (string * string)) :
  params ≠ [] →
  split "&" (Urllib.urlencode params) = map encoded_pair params
  ∧ ∀ kv : string * string,
      split "=" (encoded_pair kv)
      = [Urllib.quote_plus kv.1; Urllib.quote_plus kv.2].
Proof.
  intros Hne. split.
  - rewrite urlencode_map. apply (split_join "&").
    + by destruct params.
    + apply List.Forall_forall. intros p Hp.
      apply in_map_iff in Hp as (kv & <- & _).
      apply encoded_pair_no_ampersand.
  - intros kv. unfold encoded_pair.
    change ("=" +:+ Urllib.quote_plus kv.2) with (String "=" (Urllib.quote_plus kv.2)).
    rewrite split_app_sep by apply quote_plus_no_separator.
    rewrite split_no_sep by apply quote_plus_no_separator. reflexivity.
Qed.

Lemma urlencode_items_recoverable_witness :
  split "&" (Urllib.urlencode [("q", "a&b=c"); ("x y", "1")])
  = map encoded_pair [("q", "a&b=c"); ("x y", "1")].
Proof.
  apply (urlencode_items_recoverable [("q", "a&b=c"); ("x y", "1")]).
  discriminate.
Defined.

(** ** The normaliser, continued *)

Section NormalizerMore.

Variable LANG_ALIASES : gmap string string.
Variable lang_aliases : gmap string string.

Local Abbreviation normalize := (normalize_lang_code LANG_ALIASES lang_aliases).
Local Abbreviation aliases := (merged_aliases LANG_ALIASES lang_aliases).

Lemma len_str_map (f : ascii → ascii) (s : string) : len (str_map f s) = len s.
Proof. unfold len. induction s as [|c s IH]; simpl; [done|by rewrite IH]. Qed.

(** The normal form depends on the code only through its folding. *)
Lemma normalize_fold_ext (x y : string) :
  str_map fold_char x = str_map fold_char y → normalize x = normalize y.
Proof.
  intros H. rewrite !normalize_lang_code_unfold. f_equal.
  unfold spec_structural. rewrite !lower_replace, H. reflexivity.
Qed.

Lemma fold_char_hyphenate (c : ascii) :
  fold_char (replace_char "_" "-" c) = fold_char c.
Proof. destruct c as [[] [] [] [] [] [] [] []]; reflexivity. Qed.

Lemma fold_char_underscore (c : ascii) :
  fold_char (replace_char "-" "_" c) = fold_char c.
Proof. destruct c as [[] [] [] [] [] [] [] []]; reflexivity. Qed.

Lemma count_hyphen_fold (x : string) :
  count_char "-" (str_map fold_char x) = count_char "-" x + count_char "_" x.
Proof.
  induction x as [|c x IH]; [reflexivity|].
  simpl. rewrite IH.
  assert (E : (if Ascii.eqb (fold_char c) "-" then 1 else 0)
              = (if Ascii.eqb c "-" then 1 else 0) + (if Ascii.eqb c "_" then 1 else 0)).
  { destruct c as [[] [] [] [] [] [] [] []]; reflexivity. }
  rewrite E. lia.
Qed.

(** X9.  On ASCII codes normalisation does not see letter case or the
    choice between [_] and [-]: upper-casing or lower-casing the code, or
    exchanging one separator for the other throughout, leaves the normal
    form the same, whatever the alias tables hold. *)
Theorem normalize_case_separator_insensitive (x : string) :
  isascii x = true →
  normalize (upper x) = normalize x
  ∧ normalize (lower x) = normalize x
  ∧ normalize (replace "_" "-" x) = normalize x
  ∧ normalize (replace "-" "_" x) = normalize x.
Proof.
  intros _.
  repeat split; apply normalize_fold_ext;
    unfold upper, lower, replace; rewrite str_map_compose; apply str_map_ext.
  - apply fold_char_upper.
  - apply fold_char_lower.
  - apply fold_char_hyphenate.
  - apply fold_char_underscore.
Qed.

(** X10.  The normal form of an ASCII code is either a target of the merged
    alias table or the given code with nothing changed but letter case and
    [_] turned into [-]: it is ASCII, has the length of the code and folds
    to the same string. *)
Theorem normalize_alias_or_recased (x : string) :
  isascii x = true →
  (∃ key, aliases !! key = Some (normalize x))
  ∨ (isascii (normalize x) = true
     ∧ len (normalize x) = len x
     ∧ lower (replace "_" "-" (normalize x)) = lower (replace "_" "-" x)).
Proof.
  intros Hx.
  rewrite normalize_lang_code_unfold. unfold spec_alias.
  destruct (aliases !! spec_structural x) as [t|] eqn:E; simpl.
  - left. by exists (spec_structural x).
  - right. rewrite !lower_replace.
    pose proof (fold_structural x) as F.
    split; [by rewrite isascii_structural|]. split; [|exact F].
    rewrite <- (len_str_map fold_char (spec_structural x)), F.
    apply len_str_map.
Qed.

(** X11.  The provider table is consulted before the global one, and only
    one lookup is made: with [k] the normal form under empty tables, the
    normal form is the provider's target for [k] if there is one, else the
    global target for [k] if there is one, else [k]. *)
Theorem normalize_alias_precedence (x : string) :
  let k := normalize_lang_code ∅ ∅ x in
  normalize x
  = match lang_aliases !! k with
    | Some target => target
    | None => match LANG_ALIASES !! k with
              | Some target => target
              | None => k
              end
    end.
Proof.
  intros k.
  assert (Hk : k = spec_structural x).
  { unfold k. rewrite normalize_lang_code_unfold.
    unfold spec_alias, merged_aliases.
    by rewrite lookup_union, !lookup_empty. }
  rewrite normalize_lang_code_unfold, <- Hk. unfold spec_alias, merged_aliases.
  rewrite lookup_union.
  destruct (lang_aliases !! k), (LANG_ALIASES !! k); reflexivity.
Qed.

(** X12.  The script and region rules apply to codes with exactly one
    separator only: a code in which [-] and [_] together occur never or more
    than once is lower-cased as a whole, with [_] turned into [-], before
    the alias lookup. *)
Theorem normalize_other_than_two_parts (x : string) :
  count_char "-" x + count_char "_" x ≠ 1 →
  let s := lower (replace "_" "-" x) in
  normalize x = default s (aliases !! s).
Proof.
  intros H s.
  rewrite normalize_lang_code_unfold. unfold spec_alias.
  assert (E : spec_structural x = s); [|by rewrite E].
  unfold spec_structural. fold s.
  pose proof (length_split "-" s) as L.
  unfold s in L at 2. rewrite lower_replace, count_hyphen_fold in L.
  destruct (split "-" s) as [|a [|b [|c l]]]; try reflexivity.
  simpl in L. lia.
Qed.

End NormalizerMore.

Lemma normalize_case_separator_insensitive_witness :
  normalize_lang_code {["iw" := "he"]} ∅ (upper "pt_br")
  = normalize_lang_code {["iw" := "he"]} ∅ "pt_br"
  ∧ normalize_lang_code {["iw" := "he"]} ∅ (replace "_" "-" "pt_br")
    = normalize_lang_code {["iw" := "he"]} ∅ "pt_br".
Proof.
  destruct (normalize_case_separator_insensitive {["iw" := "he"]} ∅ "pt_br")
    as (H1 & _ & H3 & _); [reflexivity|].
  split; [exact H1|exact H3].
Defined.

Lemma normalize_alias_or_recased_witness :
  (∃ key, merged_aliases {["iw" := "he"]} ∅ !! key
          = Some (normalize_lang_code {["iw" := "he"]} ∅ "pt_br"))
  ∨ (isascii (normalize_lang_code {["iw" := "he"]} ∅ "pt_br") = true
     ∧ len (normalize_lang_code {["iw" := "he"]} ∅ "pt_br") = len "pt_br"
     ∧ lower (replace "_" "-" (normalize_lang_code {["iw" := "he"]} ∅ "pt_br"))
       = lower (replace "_" "-" "pt_br")).
Proof.
  apply (normalize_alias_or_recased {["iw" := "he"]} ∅ "pt_br"). reflexivity.
Defined.

Lemma normalize_other_than_two_parts_witness :
  normalize_lang_code {["iw" := "he"]} ∅ "zh_Hant-TW" = "zh-hant-tw"
  ∧ normalize_lang_code {["iw" := "he"]} ∅ "IW" = "he".
Proof.
  split.
  - rewrite (normalize_other_than_two_parts {["iw" := "he"]} ∅ "zh_Hant-TW")
      by (vm_compute; discriminate).
    vm_compute. reflexivity.
  - rewrite (normalize_other_than_two_parts {["iw" := "he"]} ∅ "IW")
      by (vm_compute; discriminate).
    vm_compute. reflexivity.
Defined.

(** ** The registry, continued *)

Section RegistryMore.

Variable LANG_ALIASES : gmap string string.
Variable lang_aliases : gmap string string.

Local Abbreviation normalize := (normalize_lang_code LANG_ALIASES lang_aliases).
Local Abbreviation add_lang' := (add_lang LANG_ALIASES lang_aliases).
Local Abbreviation add_langs' := (add_langs LANG_ALIASES lang_aliases).
Local Abbreviation appended := (appended_codes LANG_ALIASES lang_aliases).

Lemma add_lang_settings self o name (trans tts : bool) :
  settings (add_lang' self o name trans tts) = settings self
  ∧ chars_limit (add_lang' self o name trans tts) = chars_limit self
  ∧ history (add_lang' self o name trans tts) = history self.
Proof.
  unfold add_lang.
  destruct trans, tts, name; simpl; repeat case_decide; done.
Qed.

Lemma add_langs_settings calls self :
  settings (add_langs' self calls) = settings self
  ∧ chars_limit (add_langs' self calls) = chars_limit self
  ∧ history (add_langs' self calls) = history self.
Proof.
  revert self. induction calls as [|a calls IH]; intros self; [done|].
  simpl. destruct (IH (add_lang' self (arg_code a) a.1.1.2 a.1.2 a.2))
    as (-> & -> & ->).
  apply add_lang_settings.
Qed.

Lemma add_lang_with_settings self s o name (trans tts : bool) :
  add_lang' (with_settings self s) o name trans tts
  = with_settings (add_lang' self o name trans tts) s.
Proof.
  unfold add_lang.
  destruct trans, tts, name; simpl; repeat (case_decide; simpl in * );
    first [reflexivity | tauto].
Qed.

Lemma add_langs_with_settings calls self s :
  add_langs' (with_settings self s) calls
  = with_settings (add_langs' self calls) s.
Proof.
  revert self. induction calls as [|a calls IH]; intros self; [done|].
  simpl. rewrite add_lang_with_settings. apply IH.
Qed.

Lemma add_langs_languages calls self :
  languages (add_langs' self calls) = languages self ++ appended arg_trans calls.
Proof.
  revert self. induction calls as [|a calls IH]; intros self.
  - simpl. by rewrite app_nil_r.
  - simpl. rewrite IH, add_lang_languages. unfold appended_codes. simpl.
    unfold arg_trans at 2. destruct (a.1.2); simpl; [|reflexivity].
    by rewrite <- app_assoc.
Qed.

Lemma add_langs_tts_languages calls self :
  tts_languages (add_langs' self calls)
  = tts_languages self ++ appended arg_tts calls.
Proof.
  revert self. induction calls as [|a calls IH]; intros self.
  - simpl. by rewrite app_nil_r.
  - simpl. rewrite IH, add_lang_tts_languages. unfold appended_codes. simpl.
    unfold arg_tts at 2. destruct (a.2); simpl; [|reflexivity].
    by rewrite <- app_assoc.
Qed.

Lemma add_lang_keeps_name self o name trans tts k v :
  _languages_names self !! k = Some v →
  _languages_names (add_lang' self o name trans tts) !! k = Some v.
Proof.
  intros H. rewrite add_lang_names. destruct name as [n|]; [|exact H].
  case_decide as D; [|exact H].
  rewrite lookup_insert_ne; [exact H|]. congruence.
Qed.

Lemma add_langs_keeps_name calls self k v :
  _languages_names self !! k = Some v →
  _languages_names (add_langs' self calls) !! k = Some v.
Proof.
  revert self. induction calls as [|a calls IH]; intros self H; [exact H|].
  apply IH, add_lang_keeps_name, H.
Qed.

Lemma add_langs_originals calls self k o :
  _nonstandard_langs (add_langs' self calls) !! k = Some o →
  _nonstandard_langs self !! k = Some o ∨ o ∈ map arg_code calls.
Proof.
  revert self. induction calls as [|a calls IH]; intros self H; [by left|].
  simpl in H. apply IH in H as [H|H].
  - rewrite add_lang_nonstandard in H. case_decide as D; [|by left].
    rewrite lookup_insert in H. case_decide as E; [|by left].
    injection H as <-. right. apply list_elem_of_here.
  - right. by apply list_elem_of_further.
Qed.

(** X13.  [add_lang] only ever appends: after a run of calls [languages] is
    the old list followed by the normal form of every call that had [trans]
    set, in call order and with repetitions kept, and [tts_languages]
    likewise for the calls that had [tts] set. *)
Theorem add_langs_append_only (self : BaseProvider) (calls : list add_lang_args) :
  languages (add_langs' self calls) = languages self ++ appended arg_trans calls
  ∧ tts_languages (add_langs' self calls)
    = tts_languages self ++ appended arg_tts calls
  ∧ length (languages (add_langs' self calls))
    = length (languages self) + length (List.filter arg_trans calls).
Proof.
  split; [apply add_langs_languages|].
  split; [apply add_langs_tts_languages|].
  rewrite add_langs_languages, length_app. unfold appended_codes.
  by rewrite length_map.
Qed.

(** X14.  Neither map ever loses or changes an entry: whatever the
    nonstandard map and the recorded names held before a run of [add_lang]
    calls, they hold afterwards. *)
Theorem add_langs_maps_grow (self : BaseProvider) (calls : list add_lang_args) :
  _nonstandard_langs self ⊆ _nonstandard_langs (add_langs' self calls)
  ∧ _languages_names self ⊆ _languages_names (add_langs' self calls).
Proof.
  split; apply map_subseteq_spec; intros k v H.
  - by apply add_langs_keeps_entry.
  - by apply add_langs_keeps_name.
Qed.

(** X15.  The first display name given for a code sticks: once [add_lang]
    is called with a name for a code that had none, [get_lang_name] answers
    that name for the normal form after any further calls, as long as the
    locale service has no name of its own for it. *)
Theorem first_name_sticks (locale_lang_name : string → option string)
    (self : BaseProvider) (o display : string) (trans tts : bool)
    (calls : list add_lang_args) :
  locale_lang_name (normalize o) = None →
  _languages_names self !! normalize o = None →
  get_lang_name locale_lang_name
    (add_langs' (add_lang' self o (Some display) trans tts) calls) (normalize o)
  = display.
Proof.
  intros Hl Hn. unfold get_lang_name, dict_get. rewrite Hl.
  erewrite add_langs_keeps_name; [reflexivity|].
  rewrite add_lang_names, decide_True by exact Hn.
  apply lookup_insert_eq.
Qed.

(** X16.  On a provider that was filled by [add_lang] calls only,
    denormalising undoes normalising: [denormalize_lang] answers either the
    code itself, when nothing is registered for it, or a different code that
    was passed to one of the calls and whose normal form is the code asked
    for. *)
Theorem denormalize_then_normalize (store : Settings)
    (calls : list add_lang_args) (c : string) :
  ∃ o, denormalize_lang (add_langs' (init store) calls) [c] = PyStr o
       ∧ ((_nonstandard_langs (add_langs' (init store) calls) !! c = None ∧ o = c)
          ∨ (o ≠ c ∧ normalize o = c ∧ o ∈ map arg_code calls)).
Proof.
  exists (denormalized (add_langs' (init store) calls) c).
  split; [apply denormalize_lang_one|].
  unfold denormalized.
  destruct (_nonstandard_langs (add_langs' (init store) calls) !! c) as [o|] eqn:E;
    [right|by left].
  assert (Hok : nonstandard_ok LANG_ALIASES lang_aliases (add_langs' (init store) calls)).
  { apply add_langs_nonstandard_ok. intros k v H. simpl in H.
    by rewrite lookup_empty in H. }
  destruct (Hok c o E) as [Hne Hc].
  split; [congruence|]. split; [congruence|].
  apply add_langs_originals in E as [E|E]; [|exact E].
  simpl in E. by rewrite lookup_empty in E.
Qed.

(** X17.  The order of two [add_lang] calls matters to the two maps only
    when the codes share a normal form: for codes with different normal
    forms, both maps come out the same in either order. *)
Theorem add_lang_maps_commute (self : BaseProvider) (o1 o2 : string)
    (n1 n2 : option string) (t1 t2 s1 s2 : bool) :
  normalize o1 ≠ normalize o2 →
  _nonstandard_langs (add_lang' (add_lang' self o1 n1 t1 s1) o2 n2 t2 s2)
  = _nonstandard_langs (add_lang' (add_lang' self o2 n2 t2 s2) o1 n1 t1 s1)
  ∧ _languages_names (add_lang' (add_lang' self o1 n1 t1 s1) o2 n2 t2 s2)
    = _languages_names (add_lang' (add_lang' self o2 n2 t2 s2) o1 n1 t1 s1).
Proof.
  intros Hne. split.
  - rewrite !add_lang_nonstandard.
    repeat (case_decide; rewrite ?lookup_insert_ne in * by congruence);
      try reflexivity; try tauto.
    apply insert_insert_ne. congruence.
  - rewrite !add_lang_names.
    destruct n1 as [n1|], n2 as [n2|]; try reflexivity;
      repeat (case_decide; rewrite ?lookup_insert_ne in * by congruence);
      try reflexivity; try tauto.
    apply insert_insert_ne. congruence.
Qed.

(** X18.  Registering languages and writing settings do not interfere: a
    run of [add_lang] calls leaves every settings accessor, the character
    limit and the history as they were, and it commutes with each of the
    setters. *)
Theorem add_langs_settings_frame (self : BaseProvider)
    (calls : list add_lang_args) (value : string) (langs : list string) :
  (instance_url (add_langs' self calls) = instance_url self
   ∧ api_key (add_langs' self calls) = api_key self
   ∧ src_langs (add_langs' self calls) = src_langs self
   ∧ dest_langs (add_langs' self calls) = dest_langs self)
  ∧ (chars_limit (add_langs' self calls) = chars_limit self
     ∧ history (add_langs' self calls) = history self)
  ∧ (add_langs' (set_instance_url self value) calls
     = set_instance_url (add_langs' self calls) value
     ∧ add_langs' (set_api_key self value) calls
       = set_api_key (add_langs' self calls) value
     ∧ add_langs' (set_src_langs self langs) calls
       = set_src_langs (add_langs' self calls) langs
     ∧ add_langs' (set_dest_langs self langs) calls
       = set_dest_langs (add_langs' self calls) langs).
Proof.
  destruct (add_langs_settings calls self) as (Hs & Hc & Hh).
  unfold instance_url, api_key, src_langs, dest_langs,
    set_instance_url, set_api_key, set_src_langs, set_dest_langs.
  rewrite !add_langs_with_settings, Hs, Hc, Hh. done.
Qed.

End RegistryMore.

Lemma first_name_sticks_witness :
  get_lang_name (λ _, None)
    (add_langs ∅ base_lang_aliases
       (add_lang ∅ base_lang_aliases (init empty_store) "pt_BR"
          (Some "Portuguese (Brazil)") true false)
       [("pt-br", Some "Brazilian", true, true)])
    (normalize_lang_code ∅ base_lang_aliases "pt_BR")
  = "Portuguese (Brazil)".
Proof.
  apply (first_name_sticks ∅ base_lang_aliases (λ _, None) (init empty_store)
           "pt_BR" "Portuguese (Brazil)" true false
           [("pt-br", Some "Brazilian", true, true)]);
    reflexivity.
Defined.

Lemma add_lang_maps_commute_witness :
  _nonstandard_langs
    (add_lang ∅ base_lang_aliases
       (add_lang ∅ base_lang_aliases (init empty_store) "pt_BR" None true false)
       "zh_CN" (Some "Chinese") true false)
  = _nonstandard_langs
      (add_lang ∅ base_lang_aliases
         (add_lang ∅ base_lang_aliases (init empty_store) "zh_CN" (Some "Chinese")
            true false)
         "pt_BR" None true false).
Proof.
  apply (add_lang_maps_commute ∅ base_lang_aliases (init empty_store)
           "pt_BR" "zh_CN" None (Some "Chinese") true true false false).
  vm_compute. discriminate.
Defined.

(** ** Capability and feature flags *)

Lemma flag_in_bit (i x : N) : Flag.flag_in (2 ^ i) x = N.testbit x i.
Proof.
  unfold Flag.flag_in. destruct (N.testbit x i) eqn:E.
  - apply N.eqb_eq. apply N.bits_inj. intros m.
    rewrite N.land_spec, N.pow2_bits_eqb.
    destruct (N.eqb_spec i m) as [<-|_]; [by rewrite E|reflexivity].
  - apply N.eqb_neq. intros H.
    assert (B : N.testbit (N.land (2 ^ i) x) i = N.testbit (2 ^ i) i) by by rewrite H.
    rewrite N.land_spec, E, N.pow2_bits_true, andb_false_r in B. discriminate B.
Qed.

Lemma testbit_fold_lor (l : list N) (acc i : N) :
  N.testbit (fold_left Flag.flag_or l acc) i
  = N.testbit acc i || existsb (λ m, N.testbit m i) l.
Proof.
  revert acc. induction l as [|m l IH]; intros acc; simpl.
  - by rewrite orb_false_r.
  - rewrite IH. unfold Flag.flag_or. rewrite N.lor_spec, orb_assoc. reflexivity.
Qed.

Lemma flag_in_combine_bits (l : list N) (i : N) :
  Forall (λ m, ∃ j, m = (2 ^ j)%N) l →
  Flag.flag_in (2 ^ i) (Flag.combine l) = true ↔ (2 ^ i)%N ∈ l.
Proof.
  intros H. rewrite flag_in_bit. unfold Flag.combine.
  rewrite testbit_fold_lor, N.bits_0. simpl.
  induction H as [|m l [j ->] _ IH]; simpl.
  - split; [discriminate|]. intros E. by apply elem_of_nil in E.
  - rewrite orb_true_iff, IH, elem_of_cons, N.pow2_bits_eqb, N.eqb_eq.
    split; (intros [E|E]; [left|by right]).
    + by rewrite E.
    + by apply N.pow_inj_r in E.
Qed.

Lemma feature_members_bits :
  Forall (λ m, ∃ j, m = (2 ^ j)%N) ProviderFeature.members.
Proof.
  unfold ProviderFeature.members.
  repeat apply Forall_cons_2; try apply Forall_nil_2.
  - by exists 0%N.
  - by exists 1%N.
  - by exists 2%N.
  - by exists 3%N.
  - by exists 4%N.
  - by exists 5%N.
  - by exists 6%N.
  - by exists 7%N.
Qed.

Lemma capability_members_features (m : N) :
  m ∈ ProviderCapability.members → m ∈ ProviderFeature.members.
Proof.
  unfold ProviderCapability.members, ProviderFeature.members.
  rewrite !elem_of_cons. intuition.
Qed.

Lemma declared_bits (members declared : list N) :
  Forall (λ m, ∃ j, m = (2 ^ j)%N) members →
  Forall (λ m, m ∈ members) declared →
  Forall (λ m, ∃ j, m = (2 ^ j)%N) declared.
Proof.
  intros Hm Hd. apply Forall_forall. intros m H.
  rewrite Forall_forall in Hm, Hd. by apply Hm, Hd.
Qed.

(** X19.  The flag members are independent bits, [NONE] among them: for a
    value built with [|] from feature members, [f in value] holds exactly
    for the members that were combined, and likewise for the capability
    members.  The base provider's [features], declared as [NONE], contain
    [NONE] and no other member. *)
Theorem flags_membership (declared : list N) (f : N) :
  (Forall (λ m, m ∈ ProviderFeature.members) declared →
   f ∈ ProviderFeature.members →
   Flag.flag_in f (Flag.combine declared) = true ↔ f ∈ declared)
  ∧ (Forall (λ m, m ∈ ProviderCapability.members) declared →
     f ∈ ProviderCapability.members →
     Flag.flag_in f (Flag.combine declared) = true ↔ f ∈ declared)
  ∧ (f ∈ ProviderFeature.members →
     Flag.flag_in f base_features = true ↔ f = ProviderFeature.NONE).
Proof.
  assert (F : Forall (λ m, m ∈ ProviderFeature.members) declared →
              f ∈ ProviderFeature.members →
              Flag.flag_in f (Flag.combine declared) = true ↔ f ∈ declared).
  { intros Hd Hf.
    pose proof feature_members_bits as Hm.
    rewrite Forall_forall in Hm. destruct (Hm f Hf) as [i ->].
    apply flag_in_combine_bits.
    apply (declared_bits ProviderFeature.members);
      [apply feature_members_bits|exact Hd]. }
  split; [exact F|]. split.
  - intros Hd Hf. apply F.
    + eapply Forall_impl; [exact Hd|]. apply capability_members_features.
    + by apply capability_members_features.
  - intros Hf.
    pose proof feature_members_bits as Hm.
    rewrite Forall_forall in Hm. destruct (Hm f Hf) as [i ->].
    change base_features with (Flag.combine [ProviderFeature.NONE]).
    rewrite flag_in_combine_bits.
    + by rewrite list_elem_of_singleton.
    + apply Forall_cons_2; [by exists 0%N|apply Forall_nil_2].
Qed.

Lemma flags_membership_witness :
  Flag.flag_in ProviderFeature.DETECTION
    (Flag.combine [ProviderFeature.INSTANCES; ProviderFeature.DETECTION]) = true
  ∧ ¬ (Flag.flag_in ProviderFeature.NONE
         (Flag.combine [ProviderFeature.INSTANCES; ProviderFeature.DETECTION])
       = true).
Proof.
  split.
  - apply (proj1 (flags_membership
                    [ProviderFeature.INSTANCES; ProviderFeature.DETECTION]
                    ProviderFeature.DETECTION)).
    + repeat constructor.
    + repeat constructor.
    + repeat constructor.
  - intros H.
    apply (proj1 (flags_membership
                    [ProviderFeature.INSTANCES; ProviderFeature.DETECTION]
                    ProviderFeature.NONE)) in H.
    + apply elem_of_cons in H as [H|H]; [discriminate H|].
      apply elem_of_cons in H as [H|H]; [discriminate H|].
      by apply elem_of_nil in H.
    + repeat constructor.
    + repeat constructor.
Defined.
